(** * libbitset: a shallow embedding of [src/bitset.c] and [include/bitset/bitset.h]

    The C code is modelled on an LP64 target: [size_t] and [unsigned long] are
    64 bits wide, [int] is 32 bits wide, [bitset_atom_t] is [uint64_t] and
    [bit_t] is [unsigned char].  Integers are values of [Z] with the
    conversions between C types written out.

    Every function returns an [outcome]: a value, an abort through a failed
    [assert] (the build sets no [NDEBUG]), or [Undefined] where the C standard
    gives the evaluation no meaning (a shift by at least the width of the
    promoted left operand, an access outside the allocated buffer, a freed or
    null buffer, [__builtin_ctzl(0)]). *)

From Stdlib Require Import ZArith Lia.
From stdpp Require Import base option list gmap.

Local Open Scope Z_scope.

(** ** Outcomes of C evaluations *)

Inductive outcome (A : Type) : Type :=
| Ret (a : A)
| AssertFail
| Undefined.

Arguments Ret {A} a.
Arguments AssertFail {A}.
Arguments Undefined {A}.

#[global] Instance outcome_ret : MRet outcome := fun A a => Ret a.

#[global] Instance outcome_bind : MBind outcome := fun A B f m =>
  match m with
  | Ret a => f a
  | AssertFail => AssertFail
  | Undefined => Undefined
  end.

#[global] Instance outcome_eq_dec {A : Type} `{EqDecision A} : EqDecision (outcome A).
Proof. solve_decision. Defined.

(** [assert (c)] from <assert.h>. *)
Definition c_assert (c : bool) : outcome unit :=
  if c then Ret tt else AssertFail.

(** ** Constants and types of [bitset.h] *)

(** [sizeof(bitset_atom_t) * 8] with [bitset_atom_t = uint64_t]. *)
Definition BITS_PER_ATOM : Z := 8 * 8.

(** [UINT64_MAX]. *)
Definition BITSET_ATOM_MAX : Z := 2 ^ 64 - 1.

Definition SIZE_MAX : Z := 2 ^ 64 - 1.
Definition INT_MAX : Z := 2 ^ 31 - 1.

(** [((_bits / BITS_PER_ATOM) + ((_bits % BITS_PER_ATOM) != 0))]. *)
Definition BITS_TO_NATOMS (_bits : Z) : Z :=
  _bits / BITS_PER_ATOM + (if _bits mod BITS_PER_ATOM =? 0 then 0 else 1).

(** The [bits] member: a null pointer, a pointer whose block was freed, or a
    pointer to a live heap block of atoms. *)
Inductive buffer : Type :=
| Null
| Freed
| Block (ws : list Z).

Record bitset_t : Type := mk_bitset {
  nbits : Z;
  natoms : Z;
  bits : buffer
}.

Definition with_bits (bs : bitset_t) (b : buffer) : bitset_t :=
  {| nbits := nbits bs; natoms := natoms bs; bits := b |}.

(** ** C operators and conversions *)

(** Conversion of a value to [uint64_t] / [size_t]. *)
Definition to_u64 (z : Z) : Z := z mod 2 ^ 64.

(** Conversion to [bit_t], an [unsigned char]. *)
Definition to_bit_t (z : Z) : Z := z mod 2 ^ 8.

(** Conversion of a [size_t] value to [int] (modulo 2^32, as gcc defines it). *)
Definition to_int (z : Z) : Z := (z + 2 ^ 31) mod 2 ^ 32 - 2 ^ 31.

(** [a << n] on a non-negative [int]. *)
Definition shl_int (a n : Z) : outcome Z :=
  if (0 <=? n) && (n <? 32) && (a * 2 ^ n <=? INT_MAX)
  then Ret (a * 2 ^ n) else Undefined.

(** [a << n] on a [uint64_t]. *)
Definition shl_u64 (a n : Z) : outcome Z :=
  if (0 <=? n) && (n <? 64) then Ret (to_u64 (Z.shiftl a n)) else Undefined.

(** [a >> n] on a [uint64_t]. *)
Definition shr_u64 (a n : Z) : outcome Z :=
  if (0 <=? n) && (n <? 64) then Ret (Z.shiftr a n) else Undefined.

Fixpoint pos_popcount (p : positive) : Z :=
  match p with
  | xH => 1
  | xO q => pos_popcount q
  | xI q => 1 + pos_popcount q
  end.

(** [__builtin_popcountl]. *)
Definition bitset_atom_popcnt (w : Z) : Z :=
  match w with
  | Zpos p => pos_popcount p
  | _ => 0
  end.

Fixpoint pos_ctz (p : positive) : Z :=
  match p with
  | xO q => 1 + pos_ctz q
  | _ => 0
  end.

(** [__builtin_ctzl]: the result is undefined at 0. *)
Definition bitset_atom_ctz (w : Z) : outcome Z :=
  match w with
  | Zpos p => Ret (pos_ctz p)
  | _ => Undefined
  end.

(** ** Access to the atoms of a buffer *)

(** [b[i]] read. *)
Definition load (b : buffer) (i : Z) : outcome Z :=
  match b with
  | Block ws =>
      if 0 <=? i then
        match ws !! Z.to_nat i with
        | Some w => Ret w
        | None => Undefined
        end
      else Undefined
  | _ => Undefined
  end.

(** [b[i] = w]. *)
Definition store_atom (b : buffer) (i : Z) (w : Z) : outcome buffer :=
  match b with
  | Block ws =>
      if (0 <=? i) && (i <? Z.of_nat (length ws))
      then Ret (Block (<[Z.to_nat i := w]> ws))
      else Undefined
  | _ => Undefined
  end.

(** A [for (size_t i = start; ...; i++)] loop with [n] iterations left. *)
Fixpoint for_loop {S : Type} (n : nat) (i : Z)
    (body : Z -> S -> outcome S) (s : S) : outcome S :=
  match n with
  | O => Ret s
  | Datatypes.S n' => s' ← body i s; for_loop n' (i + 1) body s'
  end.

(** ** Storage lifecycle *)

(** [bitset_init]; [ok] tells whether [malloc] returned a block.  The result
    is the return value and the struct the call leaves behind. *)
Definition bitset_init (ok : bool) (nbits : Z) : Z * bitset_t :=
  let natoms := BITS_TO_NATOMS nbits in
  if ok
  then (0, mk_bitset nbits natoms (Block (replicate (Z.to_nat natoms) 0)))
  else (-1, mk_bitset nbits natoms Null).

(** [bitset_wipe]: [free (bs->bits)]. *)
Definition bitset_wipe (bs : bitset_t) : outcome bitset_t :=
  match bits bs with
  | Null => Ret bs
  | Freed => Undefined
  | Block _ => Ret (with_bits bs Freed)
  end.

(** What [realloc] answers:
    - [ReallocNull]: a null pointer, the old block being left as it is (a
      request that cannot be satisfied);
    - [ReallocFreed]: a null pointer, the old block being freed: the answer
      of glibc to a request of size 0 on a live block;
    - [ReallocBlock junk]: a block whose atoms past the old size hold
      whatever [junk] says. *)
Inductive realloc_result : Type :=
| ReallocNull
| ReallocFreed
| ReallocBlock (junk : nat -> Z).

Definition realloc_atoms (old : list Z) (junk : nat -> Z) (n : nat) : list Z :=
  take n old ++ map (fun i => to_u64 (junk i)) (seq (length old) (n - length old)).

(** [bitset_resize].  A null answer of [realloc] is taken for a failure
    whatever became of the old block: -1 is returned and [bitset->bits]
    keeps the pointer it had, which points to a freed block after
    [ReallocFreed]. *)
Definition bitset_resize (r : realloc_result) (bitset : bitset_t) (nbits : Z)
    : outcome (Z * bitset_t) :=
  let new_natoms := BITS_TO_NATOMS nbits in
  old ← match bits bitset with
        | Null => Ret []
        | Freed => Undefined
        | Block ws => Ret ws
        end;
  match r with
  | ReallocNull => Ret (-1, bitset)
  | ReallocFreed =>
      Ret (-1, with_bits bitset (match bits bitset with
                                 | Null => Null
                                 | _ => Freed
                                 end))
  | ReallocBlock junk =>
      Ret (0, mk_bitset nbits new_natoms
                (Block (realloc_atoms old junk (Z.to_nat new_natoms))))
  end.

(** ** Single bit manipulation ([bitset.c]) *)

Definition bitset_set (bs : bitset_t) (bit : Z) : outcome bitset_t :=
  c_assert (bit <? nbits bs);;
  m ← shl_int 1 (Z.land bit BITS_PER_ATOM);
  w ← load (bits bs) (bit / BITS_PER_ATOM);
  b ← store_atom (bits bs) (bit / BITS_PER_ATOM) (Z.lor w (to_u64 m));
  Ret (with_bits bs b).

Definition bitset_unset (bs : bitset_t) (bit : Z) : outcome bitset_t :=
  c_assert (bit <? nbits bs);;
  m ← shl_int 1 (Z.land bit BITS_PER_ATOM);
  w ← load (bits bs) (bit / BITS_PER_ATOM);
  b ← store_atom (bits bs) (bit / BITS_PER_ATOM) (Z.land w (to_u64 (Z.lnot m)));
  Ret (with_bits bs b).

Definition bitset_get (bs : bitset_t) (bit : Z) : outcome Z :=
  c_assert (bit <? nbits bs);;
  w ← load (bits bs) (bit / BITS_PER_ATOM);
  r ← shr_u64 w (Z.land bit BITS_PER_ATOM);
  Ret (to_bit_t (Z.land r 1)).

Definition bitset_set_bit (bs : bitset_t) (idx : Z) (bit : Z) : outcome bitset_t :=
  g ← bitset_get bs idx;
  if negb (g =? 0) then bitset_unset bs idx else bitset_set bs idx.

(** ** The [inline] definitions of [bitset.h]

    The header gives [bitset_get], [bitset_set], [bitset_unset] and
    [bitset_set_bit] bodies of their own.  Those of [bitset_set] and
    [bitset_unset] are the ones of [bitset.c]; [bitset_get] differs, and
    [bitset_set_bit] calls it. *)
Module Inline.

(** [return bs->bits[bit / BITS_PER_ATOM] |= (1 << (bit & BITS_PER_ATOM));]
    the value of the assignment, converted to [bit_t], and the struct after
    the store. *)
Definition bitset_get (bs : bitset_t) (bit : Z) : outcome (Z * bitset_t) :=
  c_assert (bit <? nbits bs);;
  m ← shl_int 1 (Z.land bit BITS_PER_ATOM);
  w ← load (bits bs) (bit / BITS_PER_ATOM);
  b ← store_atom (bits bs) (bit / BITS_PER_ATOM) (Z.lor w (to_u64 m));
  Ret (to_bit_t (Z.lor w (to_u64 m)), with_bits bs b).

Definition bitset_set_bit (bs : bitset_t) (idx : Z) (bit : Z) : outcome bitset_t :=
  '(g, bs1) ← bitset_get bs idx;
  if negb (g =? 0) then bitset_unset bs1 idx else bitset_set bs1 idx.

End Inline.

(** ** Counting and scanning *)

Definition bitset_popcnt (bs : bitset_t) : outcome Z :=
  for_loop (Z.to_nat (natoms bs)) 0
    (fun i sum => w ← load (bits bs) i; Ret (to_u64 (sum + bitset_atom_popcnt w)))
    0.

(** [while (bs->bits[atom] == 0 && atom < bs->natoms) atom++;] where [rest]
    is the buffer from index [atom] on: the atom is read before the bound is
    tested, so an empty [rest] is a read past the end of the block. *)
Fixpoint skip_zero_atoms (rest : list Z) (atom natoms : Z) : outcome Z :=
  match rest with
  | [] => Undefined
  | w :: rest' =>
      if (w =? 0) && (atom <? natoms)
      then skip_zero_atoms rest' (atom + 1) natoms
      else Ret atom
  end.

(** The loop started at [atom] on the buffer [b]. *)
Definition skip_zero_from (b : buffer) (atom natoms : Z) : outcome Z :=
  match b with
  | Block ws =>
      if 0 <=? atom then skip_zero_atoms (drop (Z.to_nat atom) ws) atom natoms
      else Undefined
  | _ => Undefined
  end.

(** The common tail of [bitset_first_set] and [bitset_next_set]. *)
Definition first_set_from (bs : bitset_t) (start : Z) : outcome Z :=
  atom ← skip_zero_from (bits bs) start (natoms bs);
  if atom =? natoms bs then Ret (-1)
  else
    w ← load (bits bs) atom;
    c ← bitset_atom_ctz w;
    Ret (to_int (to_u64 (atom * BITS_PER_ATOM + c))).

Definition bitset_first_set (bs : bitset_t) : outcome Z :=
  first_set_from bs 0.

Definition bitset_next_set (bs : bitset_t) (from : Z) : outcome Z :=
  let atom := from / BITS_PER_ATOM in
  mask ← shl_u64 BITSET_ATOM_MAX (Z.land from BITS_PER_ATOM);
  w ← load (bits bs) atom;
  if negb (Z.land w mask =? 0) then
    c ← bitset_atom_ctz atom;
    Ret (to_int (to_u64 (atom * BITS_PER_ATOM + c)))
  else first_set_from bs (atom + 1).

(** ** Operations on several bitsets

    [bitset_copy] and the set functions take pointers that may be equal, so
    they work on a store that maps the address of a struct to the struct.
    A struct owns its block: no two structs share one. *)

Definition deref (st : gmap nat bitset_t) (p : nat) : outcome bitset_t :=
  match st !! p with
  | Some bs => Ret bs
  | None => Undefined
  end.

(** [p->bits[i]]. *)
Definition read_atom (st : gmap nat bitset_t) (p : nat) (i : Z) : outcome Z :=
  bs ← deref st p; load (bits bs) i.

(** [p->bits[i] = w]. *)
Definition write_atom (st : gmap nat bitset_t) (p : nat) (i : Z) (w : Z)
    : outcome (gmap nat bitset_t) :=
  bs ← deref st p;
  b ← store_atom (bits bs) i w;
  Ret (<[p := with_bits bs b]> st).

(** [memcpy (d, s, n * sizeof (bitset_atom_t))] on the atoms of two blocks;
    the blocks of two structs are disjoint, and a block may be copied onto
    itself. *)
Definition memcpy_atoms (d s : buffer) (n : Z) : outcome buffer :=
  match d, s with
  | Block dws, Block sws =>
      if (0 <=? n) && (n <=? Z.of_nat (length dws)) && (n <=? Z.of_nat (length sws))
      then Ret (Block (take (Z.to_nat n) sws ++ drop (Z.to_nat n) dws))
      else Undefined
  | _, _ => Undefined
  end.

Definition bitset_copy (st : gmap nat bitset_t) (dest src : nat)
    : outcome (gmap nat bitset_t) :=
  d ← deref st dest;
  s ← deref st src;
  c_assert (natoms d =? natoms s);;
  b ← memcpy_atoms (bits d) (bits s) (natoms s);
  Ret (<[dest := with_bits d b]> st).

(** The loop [for (size_t i = 0; i < a->natoms; i++) dest->bits[i] = a->bits[i] op b->bits[i];]
    of the four set functions. No iteration writes [a->natoms], which is read
    once here. *)
Definition atoms_zip (op : Z -> Z -> Z) (st : gmap nat bitset_t) (dest a b : nat)
    : outcome (gmap nat bitset_t) :=
  sa ← deref st a;
  for_loop (Z.to_nat (natoms sa)) 0
    (fun i st' =>
       x ← read_atom st' a i;
       y ← read_atom st' b i;
       write_atom st' dest i (op x y))
    st.

Definition bitset_and_to (st : gmap nat bitset_t) (dest a b : nat)
    : outcome (gmap nat bitset_t) :=
  sa ← deref st a; sb ← deref st b; sd ← deref st dest;
  c_assert (natoms sa =? natoms sb);;
  c_assert (natoms sd =? natoms sa);;
  atoms_zip Z.land st dest a b.

Definition bitset_or_to (st : gmap nat bitset_t) (dest a b : nat)
    : outcome (gmap nat bitset_t) :=
  sa ← deref st a; sb ← deref st b; sd ← deref st dest;
  c_assert (natoms sa =? natoms sb);;
  c_assert (natoms sd =? natoms sa);;
  atoms_zip Z.lor st dest a b.

Definition bitset_and (st : gmap nat bitset_t) (a b : nat)
    : outcome (gmap nat bitset_t) :=
  sa ← deref st a; sb ← deref st b;
  c_assert (natoms sa =? natoms sb);;
  atoms_zip Z.land st a a b.

Definition bitset_or (st : gmap nat bitset_t) (a b : nat)
    : outcome (gmap nat bitset_t) :=
  sa ← deref st a; sb ← deref st b;
  c_assert (natoms sa =? natoms sb);;
  atoms_zip Z.lor st a a b.

(** ** The interface as a whole

    One call of the interface with its arguments, and what the allocator
    answered where there is one. *)
Inductive call : Type :=
| Init (p : nat) (nbits : Z) (ok : bool)
| Wipe (p : nat)
| Copy (dest src : nat)
| Resize (p : nat) (nbits : Z) (r : realloc_result)
| SetBit (p : nat) (bit : Z)
| Unset (p : nat) (bit : Z)
| Get (p : nat) (bit : Z)
| SetTo (p : nat) (idx : Z) (bit : Z)
| InlineGet (p : nat) (bit : Z)
| InlineSetTo (p : nat) (idx : Z) (bit : Z)
| PopCount (p : nat)
| FirstSet (p : nat)
| NextSet (p : nat) (from : Z)
| AndTo (dest a b : nat)
| OrTo (dest a b : nat)
| And (a b : nat)
| Or (a b : nat).

(** The calls that assign [nbits] and [natoms]. *)
Definition sizing (c : call) : bool :=
  match c with
  | Init _ _ _ | Resize _ _ _ => true
  | _ => false
  end.

Definition exec (c : call) (st : gmap nat bitset_t) : outcome (gmap nat bitset_t) :=
  match c with
  | Init p n ok => Ret (<[p := snd (bitset_init ok n)]> st)
  | Wipe p => bs ← deref st p; bs' ← bitset_wipe bs; Ret (<[p := bs']> st)
  | Copy dest src => bitset_copy st dest src
  | Resize p n r =>
      bs ← deref st p; rb ← bitset_resize r bs n; Ret (<[p := snd rb]> st)
  | SetBit p bit => bs ← deref st p; bs' ← bitset_set bs bit; Ret (<[p := bs']> st)
  | Unset p bit => bs ← deref st p; bs' ← bitset_unset bs bit; Ret (<[p := bs']> st)
  | Get p bit => bs ← deref st p; bitset_get bs bit;; Ret st
  | SetTo p idx bit =>
      bs ← deref st p; bs' ← bitset_set_bit bs idx bit; Ret (<[p := bs']> st)
  | InlineGet p bit =>
      bs ← deref st p; gb ← Inline.bitset_get bs bit; Ret (<[p := snd gb]> st)
  | InlineSetTo p idx bit =>
      bs ← deref st p; bs' ← Inline.bitset_set_bit bs idx bit; Ret (<[p := bs']> st)
  | PopCount p => bs ← deref st p; bitset_popcnt bs;; Ret st
  | FirstSet p => bs ← deref st p; bitset_first_set bs;; Ret st
  | NextSet p from => bs ← deref st p; bitset_next_set bs from;; Ret st
  | AndTo dest a b => bitset_and_to st dest a b
  | OrTo dest a b => bitset_or_to st dest a b
  | And a b => bitset_and st a b
  | Or a b => bitset_or st a b
  end.

(** A sequence of calls, from left to right. *)
Fixpoint run (cs : list call) (st : gmap nat bitset_t) : outcome (gmap nat bitset_t) :=
  match cs with
  | [] => Ret st
  | c :: cs' => st' ← exec c st; run cs' st'
  end.

(** ** Notions of the specification *)

(** [ceil (n / d)] for a positive [d]. *)
Definition ceil_div (n d : Z) : Z := (n + d - 1) / d.

(** [natoms == ceil (nbits / bits_per_atom)] for every struct of the store. *)
Definition atoms_inv (st : gmap nat bitset_t) : Prop :=
  forall p bs, st !! p = Some bs -> natoms bs = ceil_div (nbits bs) BITS_PER_ATOM.

(** The [nbits] and [natoms] members of the struct at [p], if there is one. *)
Definition sizes (st : gmap nat bitset_t) (p : nat) : option (Z * Z) :=
  (fun bs => (nbits bs, natoms bs)) <$> st !! p.

(** An initialized bitset: the sizes agree and the block has [natoms] atoms,
    each a 64-bit value. *)
Definition initialized (bs : bitset_t) : Prop :=
  0 <= nbits bs <= SIZE_MAX /\
  natoms bs = BITS_TO_NATOMS (nbits bs) /\
  exists ws, bits bs = Block ws /\
             Z.of_nat (length ws) = natoms bs /\
             Forall (fun w => 0 <= w <= BITSET_ATOM_MAX) ws.

(** Bit [i] of the storage: bit [i mod bits_per_atom] of atom [i / bits_per_atom],
    least significant bit first. *)
Definition stored_bit (ws : list Z) (i : Z) : bool :=
  match ws !! Z.to_nat (i / BITS_PER_ATOM) with
  | Some w => Z.testbit w (i mod BITS_PER_ATOM)
  | None => false
  end.

(** The number of indices [i] with [start <= i < start + n] at which [P]
    holds. *)
Fixpoint count_indices (P : Z -> bool) (start : Z) (n : nat) : Z :=
  match n with
  | O => 0
  | S n' => Z.b2z (P start) + count_indices P (start + 1) n'
  end.

(** The number of indices [i < nbits] at which [bitset_get] answers 1. *)
Definition count_get_ones (bs : bitset_t) : Z :=
  count_indices (fun i => bool_decide (bitset_get bs i = Ret 1)) 0
    (Z.to_nat (nbits bs)).

(** The number of positions [i < nb] whose stored bit is 1. *)
Definition count_stored_ones (ws : list Z) (nb : Z) : Z :=
  count_indices (stored_bit ws) 0 (Z.to_nat nb).

(** The sum of [__builtin_popcountl] over the atoms. *)
Definition sum_popcnt (ws : list Z) : Z :=
  foldr (fun w s => bitset_atom_popcnt w + s) 0 ws.

(** Two values of a struct with the same [nbits] and [natoms]. *)
Definition same_sizes (bs bs' : bitset_t) : Prop :=
  nbits bs' = nbits bs /\ natoms bs' = natoms bs.

(** A struct whose block is allocated and has [natoms] atoms. *)
Definition live (bs : bitset_t) : Prop :=
  exists ws, bits bs = Block ws /\ Z.of_nat (length ws) = natoms bs.

(** What a call that writes through [dest] may change: nothing in another
    struct, and no [nbits] or [natoms] at all. *)
Definition frame (dest : nat) (st st' : gmap nat bitset_t) : Prop :=
  (forall p, p <> dest -> st' !! p = st !! p) /\
  (forall p, sizes st' p = sizes st p).

(** What the loop of the set functions keeps true of the store [t] it works
    on: structs other than [dest] are those of the initial store [st], and
    every live struct of [st] is still live with the same sizes. *)
Definition zip_inv (dest : nat) (st t : gmap nat bitset_t) : Prop :=
  (forall p, p <> dest -> t !! p = st !! p) /\
  (forall p bs, st !! p = Some bs -> live bs ->
     exists bs', t !! p = Some bs' /\ same_sizes bs bs' /\ live bs').

(** The struct at [p] is [sp], and its block holds the [natoms] atoms [ws]. *)
Definition operand (st : gmap nat bitset_t) (p : nat) (sp : bitset_t) (ws : list Z) : Prop :=
  st !! p = Some sp /\ bits sp = Block ws /\ Z.of_nat (length ws) = natoms sp.

(** * Properties *)

(** ** Sizes *)

Lemma BITS_TO_NATOMS_ceil (n : Z) :
  BITS_TO_NATOMS n = ceil_div n BITS_PER_ATOM.
Proof.
  unfold BITS_TO_NATOMS, ceil_div, BITS_PER_ATOM.
  change (8 * 8) with 64.
  pose proof (Z.div_mod n 64 ltac:(lia)) as Hn.
  pose proof (Z.mod_pos_bound n 64 ltac:(lia)) as Hr.
  destruct (Z.eqb_spec (n mod 64) 0) as [H0 | H0].
  - apply Z.div_unique with (r := 63); lia.
  - apply Z.div_unique with (r := n mod 64 - 1); lia.
Qed.

Lemma ceil_div_bounds (n d : Z) :
  0 < d -> d * (ceil_div n d - 1) < n <= d * ceil_div n d.
Proof.
  intros Hd. unfold ceil_div.
  pose proof (Z.div_mod (n + d - 1) d ltac:(lia)) as Hn.
  pose proof (Z.mod_pos_bound (n + d - 1) d Hd) as Hr.
  lia.
Qed.

Lemma BITS_TO_NATOMS_index (n i : Z) :
  0 <= i < n -> 0 <= i / BITS_PER_ATOM < BITS_TO_NATOMS n.
Proof.
  intros Hi. rewrite BITS_TO_NATOMS_ceil.
  pose proof (ceil_div_bounds n BITS_PER_ATOM ltac:(reflexivity)) as Hc.
  unfold BITS_PER_ATOM in *. change (8 * 8) with 64 in *.
  split; [apply Z.div_pos; lia |].
  apply Z.div_lt_upper_bound; lia.
Qed.

Lemma initialized_init (n : Z) :
  0 <= n <= SIZE_MAX -> initialized (snd (bitset_init true n)).
Proof.
  intros Hn. unfold initialized, bitset_init. simpl.
  split; [exact Hn |]. split; [reflexivity |].
  exists (replicate (Z.to_nat (BITS_TO_NATOMS n)) 0).
  split; [reflexivity |]. split.
  - rewrite length_replicate.
    pose proof (BITS_TO_NATOMS_ceil n) as Hc.
    pose proof (ceil_div_bounds n BITS_PER_ATOM ltac:(reflexivity)) as Hb.
    unfold BITS_PER_ATOM in *. change (8 * 8) with 64 in *. lia.
  - apply Forall_replicate. unfold BITSET_ATOM_MAX. lia.
Qed.

(** ** Single bits *)

Lemma land_lor_1 (w : Z) : Z.land (Z.lor w 1) 1 = 1.
Proof.
  rewrite Z.land_lor_distr_l. change (Z.land 1 1) with 1.
  apply Z.bits_inj'. intros n Hn.
  rewrite Z.lor_spec, Z.land_spec.
  destruct (Z.eq_dec n 0) as [-> | Hne].
  - simpl. apply orb_true_r.
  - rewrite (Z.bits_above_log2 1 n) by (simpl; lia).
    rewrite andb_false_r. reflexivity.
Qed.

Lemma land_1_cases (w : Z) : Z.land w 1 = 0 \/ Z.land w 1 = 1.
Proof.
  pose proof (Z.land_ones w 1 ltac:(lia)) as H.
  change (Z.ones 1) with 1 in H. change (2 ^ 1) with 2 in H.
  pose proof (Z.mod_pos_bound w 2 ltac:(lia)). lia.
Qed.

Lemma land_clear_0 (w : Z) : Z.land (Z.land w (to_u64 (Z.lnot 1))) 1 = 0.
Proof.
  rewrite <- Z.land_assoc.
  replace (Z.land (to_u64 (Z.lnot 1)) 1) with 0 by (vm_compute; reflexivity).
  apply Z.land_0_r.
Qed.

Lemma bitset_get_defined (bs : bitset_t) (ws : list Z) (bit w : Z) :
  bits bs = Block ws -> 0 <= bit < nbits bs ->
  Z.land bit BITS_PER_ATOM = 0 ->
  ws !! Z.to_nat (bit / BITS_PER_ATOM) = Some w ->
  bitset_get bs bit = Ret (Z.land w 1).
Proof.
  intros Hb Hbit Hland Hw. unfold bitset_get.
  rewrite (proj2 (Z.ltb_lt _ _) (proj2 Hbit)). simpl.
  rewrite Hb. unfold load.
  rewrite (proj2 (Z.leb_le 0 (bit / BITS_PER_ATOM))) by (apply Z.div_pos; [lia | reflexivity]).
  rewrite Hw. simpl. rewrite Hland. simpl.
  f_equal. unfold to_bit_t. rewrite Z.shiftr_0_r.
  destruct (land_1_cases w) as [-> | ->]; reflexivity.
Qed.

Lemma load_Some (ws : list Z) (i w : Z) :
  0 <= i -> ws !! Z.to_nat i = Some w -> load (Block ws) i = Ret w.
Proof.
  intros Hi Hw. unfold load.
  rewrite (proj2 (Z.leb_le 0 i) Hi), Hw. reflexivity.
Qed.

Lemma store_atom_Some (ws : list Z) (i w v : Z) :
  0 <= i -> ws !! Z.to_nat i = Some w ->
  store_atom (Block ws) i v = Ret (Block (<[Z.to_nat i := v]> ws)).
Proof.
  intros Hi Hw. unfold store_atom.
  apply lookup_lt_Some in Hw.
  rewrite (proj2 (Z.leb_le 0 i) Hi).
  rewrite (proj2 (Z.ltb_lt i (Z.of_nat (length ws)))) by lia.
  reflexivity.
Qed.

Lemma atom_index_nonneg (bit : Z) : 0 <= bit -> 0 <= bit / BITS_PER_ATOM.
Proof. intros H. apply Z.div_pos; [exact H | reflexivity]. Qed.

Lemma bitset_set_defined (bs : bitset_t) (ws : list Z) (bit w : Z) :
  bits bs = Block ws -> 0 <= bit < nbits bs ->
  Z.land bit BITS_PER_ATOM = 0 ->
  ws !! Z.to_nat (bit / BITS_PER_ATOM) = Some w ->
  bitset_set bs bit =
  Ret (with_bits bs (Block (<[Z.to_nat (bit / BITS_PER_ATOM) := Z.lor w 1]> ws))).
Proof.
  intros Hb Hbit Hland Hw. unfold bitset_set.
  rewrite (proj2 (Z.ltb_lt _ _) (proj2 Hbit)), Hland, Hb.
  change (shl_int 1 0) with (Ret 1 : outcome Z).
  change (to_u64 1) with 1. cbn [c_assert mbind outcome_bind].
  rewrite (load_Some ws _ w) by (auto using atom_index_nonneg with lia).
  cbn [mbind outcome_bind].
  rewrite (store_atom_Some ws _ w) by (auto using atom_index_nonneg with lia).
  reflexivity.
Qed.

Lemma bitset_unset_defined (bs : bitset_t) (ws : list Z) (bit w : Z) :
  bits bs = Block ws -> 0 <= bit < nbits bs ->
  Z.land bit BITS_PER_ATOM = 0 ->
  ws !! Z.to_nat (bit / BITS_PER_ATOM) = Some w ->
  bitset_unset bs bit =
  Ret (with_bits bs (Block (<[Z.to_nat (bit / BITS_PER_ATOM) :=
                               Z.land w (to_u64 (Z.lnot 1))]> ws))).
Proof.
  intros Hb Hbit Hland Hw. unfold bitset_unset.
  rewrite (proj2 (Z.ltb_lt _ _) (proj2 Hbit)), Hland, Hb.
  change (shl_int 1 0) with (Ret 1 : outcome Z). cbn [c_assert mbind outcome_bind].
  rewrite (load_Some ws _ w) by (auto using atom_index_nonneg with lia).
  cbn [mbind outcome_bind].
  rewrite (store_atom_Some ws _ w) by (auto using atom_index_nonneg with lia).
  reflexivity.
Qed.

(** The atom an index below [nbits] falls into is allocated. *)
Lemma initialized_atom (bs : bitset_t) (ws : list Z) (bit : Z) :
  initialized bs -> bits bs = Block ws -> 0 <= bit < nbits bs ->
  exists w, ws !! Z.to_nat (bit / BITS_PER_ATOM) = Some w.
Proof.
  intros (_ & Hnat & ws' & Hws' & Hlen & _) Hb Hbit.
  rewrite Hb in Hws'. injection Hws' as <-.
  pose proof (BITS_TO_NATOMS_index (nbits bs) bit Hbit) as Hi.
  apply lookup_lt_is_Some_2. lia.
Qed.

(** Where the shifts of [bitset_set] and [bitset_get] are defined, that is at
    the indices [i] with [i & BITS_PER_ATOM == 0], a bit that was set reads
    as 1 and a bit that was unset reads as 0. *)
Lemma bitset_set_get_defined (bs : bitset_t) (i : Z) :
  initialized bs -> 0 <= i < nbits bs -> Z.land i BITS_PER_ATOM = 0 ->
  (exists bs', bitset_set bs i = Ret bs' /\ bitset_get bs' i = Ret 1) /\
  (exists bs', bitset_unset bs i = Ret bs' /\ bitset_get bs' i = Ret 0).
Proof.
  intros Hinit Hi Hland.
  pose proof Hinit as (Hn & Hnat & ws & Hb & Hlen & Hall).
  destruct (initialized_atom bs ws i Hinit Hb Hi) as [w Hw].
  pose proof (lookup_lt_Some _ _ _ Hw) as Hlt.
  split.
  - eexists. split; [eapply bitset_set_defined; eauto |].
    erewrite bitset_get_defined;
      [f_equal; apply land_lor_1 | reflexivity | exact Hi | exact Hland
      | apply list_lookup_insert_eq; exact Hlt].
  - eexists. split; [eapply bitset_unset_defined; eauto |].
    erewrite bitset_get_defined;
      [f_equal; apply land_clear_0 | reflexivity | exact Hi | exact Hland
      | apply list_lookup_insert_eq; exact Hlt].
Qed.

(** [bitset_set_bit] never looks at the value it is given. *)
Lemma bitset_set_bit_ignores_bit (bs : bitset_t) (idx v v' : Z) :
  bitset_set_bit bs idx v = bitset_set_bit bs idx v'.
Proof. reflexivity. Qed.

(** Where it is defined, [bitset_set_bit] inverts what [bitset_get] reads. *)
Lemma bitset_set_bit_toggles (bs : bitset_t) (idx v g : Z) :
  initialized bs -> 0 <= idx < nbits bs -> Z.land idx BITS_PER_ATOM = 0 ->
  bitset_get bs idx = Ret g ->
  exists bs', bitset_set_bit bs idx v = Ret bs' /\ bitset_get bs' idx = Ret (1 - g).
Proof.
  intros Hinit Hi Hland Hg.
  destruct (bitset_set_get_defined bs idx Hinit Hi Hland)
    as [(b1 & Hset & Hget1) (b0 & Hunset & Hget0)].
  pose proof Hinit as (Hn & Hnat & ws & Hb & Hlen & Hall).
  destruct (initialized_atom bs ws idx Hinit Hb Hi) as [w Hw].
  rewrite (bitset_get_defined bs ws idx w) in Hg by auto.
  injection Hg as <-.
  unfold bitset_set_bit.
  rewrite (bitset_get_defined bs ws idx w) by auto.
  cbn [mbind outcome_bind].
  destruct (land_1_cases w) as [-> | ->]; simpl.
  - exists b1. split; assumption.
  - exists b0. split; assumption.
Qed.

(** C1. Code defect: on the bitset that [bitset_init] makes for one bit,
    whose bit 0 is unset, [bitset_set_bit] with index 0 and value 0 sets the
    bit: afterwards atom 0 is 1 and [bitset_get] reads 1, not the value 0 it
    was asked to store. *)
Theorem bitset_set_bit_value_0_sets :
  bitset_get (snd (bitset_init true 1)) 0 = Ret 0 /\
  bitset_set_bit (snd (bitset_init true 1)) 0 0 = Ret (mk_bitset 1 1 (Block [1])) /\
  bitset_get (mk_bitset 1 1 (Block [1])) 0 = Ret 1.
Proof. repeat split; vm_compute; reflexivity. Qed.

(** The [inline] [bitset_set_bit] of the header always leaves the bit unset,
    here with value 1. *)
Lemma inline_bitset_set_bit_value_1_unsets :
  Inline.bitset_set_bit (snd (bitset_init true 1)) 0 1 = Ret (mk_bitset 1 1 (Block [0])).
Proof. vm_compute. reflexivity. Qed.

(** C3. Code defect: with capacity 65, index 64 is in range, yet
    [bitset_set], [bitset_unset] and [bitset_get] shift by
    [64 & BITS_PER_ATOM], which is 64: a shift of the 32-bit [1] or of the
    64-bit atom by 64 bits, which C leaves undefined.  No call gives a
    value. *)
Theorem bitset_set_get_64_undefined :
  Z.land 64 BITS_PER_ATOM = 64 /\
  bitset_set (snd (bitset_init true 65)) 64 = Undefined /\
  bitset_unset (snd (bitset_init true 65)) 64 = Undefined /\
  bitset_get (snd (bitset_init true 65)) 64 = Undefined.
Proof. repeat split; vm_compute; reflexivity. Qed.

(** [bitset_get] of [bitset.c] answers 0 or 1 whenever it answers. *)
Lemma bitset_get_0_or_1 (bs : bitset_t) (bit v : Z) :
  bitset_get bs bit = Ret v -> v = 0 \/ v = 1.
Proof.
  unfold bitset_get.
  destruct (c_assert _); cbn [mbind outcome_bind]; try discriminate.
  destruct (load _ _) as [w | |]; cbn [mbind outcome_bind]; try discriminate.
  destruct (shr_u64 _ _) as [r | |]; cbn [mbind outcome_bind]; try discriminate.
  intros [= <-]. unfold to_bit_t.
  destruct (land_1_cases r) as [-> | ->]; [left | right]; reflexivity.
Qed.

(** C4. Code defect: the [inline] [bitset_get] of [bitset.h] has the body of
    [bitset_set].  On the bitset made for one bit, whose bit 0 is unset, it
    stores 1 into atom 0 and returns 1; and it returns the whole low byte of
    the atom, 3 for an atom of value 2.  The [bitset_get] of [bitset.c]
    writes nothing, but at index 64 of a bitset of capacity 65 it shifts the
    atom by 64 bits and has no defined result. *)
Theorem inline_bitset_get_writes :
  Inline.bitset_get (mk_bitset 1 1 (Block [0])) 0
    = Ret (1, mk_bitset 1 1 (Block [1])) /\
  snd (bitset_init true 1) = mk_bitset 1 1 (Block [0]) /\
  Inline.bitset_get (mk_bitset 2 1 (Block [2])) 0
    = Ret (3, mk_bitset 2 1 (Block [3])) /\
  bitset_get (snd (bitset_init true 65)) 64 = Undefined.
Proof. repeat split; vm_compute; reflexivity. Qed.

(** ** Scanning *)

Lemma skip_zero_atoms_zeros (k : nat) (atom natoms : Z) :
  atom + Z.of_nat k <= natoms ->
  skip_zero_atoms (replicate k 0) atom natoms = Undefined.
Proof.
  revert atom. induction k as [| k IH]; intros atom Hle; [reflexivity |].
  cbn [replicate skip_zero_atoms]. rewrite Z.eqb_refl.
  rewrite (proj2 (Z.ltb_lt atom natoms)) by lia.
  apply IH. lia.
Qed.

Lemma skip_zero_atoms_stops (k : nat) (w : Z) (tl : list Z) (atom natoms : Z) :
  w <> 0 -> atom + Z.of_nat k <= natoms ->
  skip_zero_atoms (replicate k 0 ++ w :: tl) atom natoms = Ret (atom + Z.of_nat k).
Proof.
  intros Hw. revert atom. induction k as [| k IH]; intros atom Hle.
  - cbn. rewrite (proj2 (Z.eqb_neq w 0) Hw). cbn. f_equal. lia.
  - cbn [replicate app skip_zero_atoms]. rewrite Z.eqb_refl.
    rewrite (proj2 (Z.ltb_lt atom natoms)) by lia. cbn [andb].
    rewrite IH by lia. f_equal. lia.
Qed.

Lemma bitset_atom_ctz_pow2 (j : Z) : 0 <= j -> bitset_atom_ctz (2 ^ j) = Ret j.
Proof.
  revert j. apply natlike_ind; [reflexivity |].
  intros j Hj IH. rewrite Z.pow_succ_r by exact Hj.
  unfold bitset_atom_ctz in *.
  destruct (2 ^ j) as [| p | p]; try discriminate.
  injection IH as IH.
  change (2 * Z.pos p) with (Z.pos p~0). cbn [pos_ctz].
  rewrite IH. f_equal. lia.
Qed.

Lemma to_int_small (k : Z) : 0 <= k <= INT_MAX -> to_int (to_u64 k) = k.
Proof.
  intros Hk. unfold to_int, to_u64, INT_MAX in *.
  rewrite (Z.mod_small k) by lia.
  rewrite Z.mod_small by lia. lia.
Qed.

Lemma bitset_first_set_all_zero (bs : bitset_t) (k : nat) :
  bits bs = Block (replicate k 0) -> Z.of_nat k <= natoms bs ->
  bitset_first_set bs = Undefined.
Proof.
  intros Hb Hk. unfold bitset_first_set, first_set_from, skip_zero_from.
  rewrite Hb. change (0 <=? 0) with true. change (Z.to_nat 0) with 0%nat.
  rewrite drop_0.
  rewrite skip_zero_atoms_zeros by lia. reflexivity.
Qed.

Lemma bitset_first_set_one_bit (bs : bitset_t) (k : Z) :
  0 <= k < nbits bs -> k <= INT_MAX ->
  natoms bs = BITS_TO_NATOMS (nbits bs) ->
  bits bs = Block (<[Z.to_nat (k / BITS_PER_ATOM) := 2 ^ (k mod BITS_PER_ATOM)]>
                     (replicate (Z.to_nat (natoms bs)) 0)) ->
  bitset_first_set bs = Ret k.
Proof.
  intros Hk Hmax Hnat Hb.
  pose proof (BITS_TO_NATOMS_index (nbits bs) k Hk) as Hi.
  rewrite <- Hnat in Hi.
  pose proof (Z.mod_pos_bound k BITS_PER_ATOM ltac:(reflexivity)) as Hj.
  assert (Hw : 2 ^ (k mod BITS_PER_ATOM) <> 0) by (apply Z.pow_nonzero; lia).
  rewrite insert_replicate_lt in Hb by lia.
  unfold bitset_first_set, first_set_from, skip_zero_from.
  rewrite Hb. change (0 <=? 0) with true. change (Z.to_nat 0) with 0%nat.
  rewrite drop_0.
  rewrite skip_zero_atoms_stops by (auto; lia).
  cbn [mbind outcome_bind]. rewrite Z.add_0_l, Z2Nat.id by lia.
  rewrite (proj2 (Z.eqb_neq _ _)) by lia.
  rewrite (load_Some _ _ (2 ^ (k mod BITS_PER_ATOM))); [| lia |].
  - cbn [mbind outcome_bind]. rewrite bitset_atom_ctz_pow2 by lia.
    cbn [mbind outcome_bind]. f_equal.
    rewrite Z.mul_comm, <- Z.div_mod by (unfold BITS_PER_ATOM; lia).
    apply to_int_small. lia.
  - rewrite lookup_app_r; rewrite length_replicate; [| lia].
    rewrite Nat.sub_diag. reflexivity.
Qed.

(** C5. Code defect: on a bitset whose atoms are all zero the loop of
    [bitset_first_set] reads [bs->bits[atom]] before it tests
    [atom < bs->natoms], so it reads the atom after the last one, outside the
    block ([bits[1]] of a block of one atom for capacity 64, [bits[0]] of an
    empty block for capacity 0): the call has no defined result, where -1 is
    expected. *)
Theorem bitset_first_set_fresh_undefined :
  snd (bitset_init true 64) = mk_bitset 64 1 (Block [0]) /\
  bitset_first_set (snd (bitset_init true 64)) = Undefined /\
  snd (bitset_init true 0) = mk_bitset 0 0 (Block []) /\
  bitset_first_set (snd (bitset_init true 0)) = Undefined.
Proof. repeat split; vm_compute; reflexivity. Qed.

(** When the atom that holds [from] has a bit left under the mask,
    [bitset_next_set] answers from the index of the atom alone: the value of
    the atom plays no part. *)
Lemma bitset_next_set_first_atom (bs : bitset_t) (from w : Z) :
  Z.land from BITS_PER_ATOM = 0 ->
  load (bits bs) (from / BITS_PER_ATOM) = Ret w ->
  w <> 0 -> 0 <= w <= BITSET_ATOM_MAX ->
  bitset_next_set bs from =
  (c ← bitset_atom_ctz (from / BITS_PER_ATOM);
   Ret (to_int (to_u64 (from / BITS_PER_ATOM * BITS_PER_ATOM + c)))).
Proof.
  intros Hland Hload Hw Hrange. unfold bitset_next_set.
  rewrite Hland, Hload.
  change (shl_u64 BITSET_ATOM_MAX 0) with (Ret (Z.ones 64) : outcome Z).
  cbn [mbind outcome_bind].
  rewrite Z.land_ones by lia.
  change (2 ^ 64) with (BITSET_ATOM_MAX + 1).
  rewrite Z.mod_small by lia.
  rewrite (proj2 (Z.eqb_neq w 0) Hw). reflexivity.
Qed.

(** C2. Code defect: on the bitset of capacity 192 in which bit 128 alone is
    set (atom 2 has value 1), [bitset_next_set] from 128 answers
    [2 * 64 + ctz (2)], which is 129, because it counts the trailing zeros of
    the atom index and not of the atom; from 129, where no bit is set at or
    after, it answers 129 again and not -1. *)
Theorem bitset_next_set_128_is_129 :
  bitset_set (snd (bitset_init true 192)) 128 = Ret (mk_bitset 192 3 (Block [0; 0; 1])) /\
  bitset_next_set (mk_bitset 192 3 (Block [0; 0; 1])) 128 = Ret 129 /\
  bitset_next_set (mk_bitset 192 3 (Block [0; 0; 1])) 129 = Ret 129.
Proof. repeat split; vm_compute; reflexivity. Qed.

(** ** Counting *)

Lemma popcnt_loop_zeros (m k : nat) (i : Z) :
  0 <= i -> (Z.to_nat i + k <= m)%nat ->
  for_loop k i
    (fun j sum => w ← load (Block (replicate m 0)) j;
                  Ret (to_u64 (sum + bitset_atom_popcnt w))) 0 = Ret 0.
Proof.
  revert i. induction k as [| k IH]; intros i Hi Hle; [reflexivity |].
  cbn [for_loop].
  rewrite (load_Some _ i 0) by (auto; apply lookup_replicate_2; lia).
  cbn [mbind outcome_bind]. change (to_u64 (0 + bitset_atom_popcnt 0)) with 0.
  apply IH; lia.
Qed.

(** The population count of a bitset that [bitset_init] has just made is 0. *)
Lemma bitset_popcnt_fresh (n : Z) :
  bitset_popcnt (snd (bitset_init true n)) = Ret 0.
Proof.
  unfold bitset_popcnt, bitset_init. cbn [snd natoms bits].
  apply popcnt_loop_zeros; [lia |].
  change (Z.to_nat 0) with 0%nat. lia.
Qed.

Lemma count_indices_app (P : Z -> bool) (s : Z) (n1 n2 : nat) :
  count_indices P s (n1 + n2) =
  count_indices P s n1 + count_indices P (s + Z.of_nat n1) n2.
Proof.
  revert s. induction n1 as [| n1 IH]; intros s.
  - cbn. rewrite Z.add_0_r. reflexivity.
  - cbn [Nat.add count_indices]. rewrite IH.
    replace (s + 1 + Z.of_nat n1) with (s + Z.of_nat (S n1)) by lia. lia.
Qed.

Lemma count_indices_ext (P Q : Z -> bool) (s : Z) (n : nat) :
  (forall i, s <= i < s + Z.of_nat n -> P i = Q i) ->
  count_indices P s n = count_indices Q s n.
Proof.
  revert s. induction n as [| n IH]; intros s H; [reflexivity |].
  cbn [count_indices]. rewrite (H s) by lia. f_equal.
  apply IH. intros i Hi. apply H. lia.
Qed.

Lemma count_indices_shift (P : Z -> bool) (s m : Z) (n : nat) :
  count_indices P (s + m) n = count_indices (fun i => P (i + m)) s n.
Proof.
  revert s. induction n as [| n IH]; intros s; [reflexivity |].
  cbn [count_indices]. f_equal.
  replace (s + m + 1) with (s + 1 + m) by lia. apply IH.
Qed.

Lemma count_indices_false (P : Z -> bool) (s : Z) (n : nat) :
  (forall i, s <= i < s + Z.of_nat n -> P i = false) ->
  count_indices P s n = 0.
Proof.
  revert s. induction n as [| n IH]; intros s H; [reflexivity |].
  cbn [count_indices]. rewrite (H s) by lia. rewrite IH; [reflexivity |].
  intros i Hi. apply H. lia.
Qed.

Lemma count_indices_bounds (P : Z -> bool) (s : Z) (n : nat) :
  0 <= count_indices P s n <= Z.of_nat n.
Proof.
  revert s. induction n as [| n IH]; intros s; [cbn; lia |].
  cbn [count_indices]. specialize (IH (s + 1)).
  destruct (P s); cbn [Z.b2z]; lia.
Qed.

Lemma bitset_atom_popcnt_div2 (w : Z) :
  0 <= w ->
  bitset_atom_popcnt w = Z.b2z (Z.testbit w 0) + bitset_atom_popcnt (Z.div2 w).
Proof.
  intros Hw. destruct w as [| p | p]; [reflexivity | | lia].
  destruct p; cbn; lia.
Qed.

(** [__builtin_popcountl] counts the bits of the atom that are 1. *)
Lemma bitset_atom_popcnt_count (n : nat) (w : Z) :
  0 <= w < 2 ^ Z.of_nat n ->
  bitset_atom_popcnt w = count_indices (Z.testbit w) 0 n.
Proof.
  revert w. induction n as [| n IH]; intros w Hw.
  - cbn in Hw. assert (w = 0) as -> by lia. reflexivity.
  - rewrite bitset_atom_popcnt_div2 by lia. cbn [count_indices]. f_equal.
    rewrite (count_indices_shift (Z.testbit w) 0 1).
    rewrite (count_indices_ext _ (Z.testbit (Z.div2 w)) 0 n).
    + apply IH. rewrite Z.div2_div. rewrite Nat2Z.inj_succ, Z.pow_succ_r in Hw by lia.
      split; [apply Z.div_pos; lia | apply Z.div_lt_upper_bound; lia].
    + intros i Hi. rewrite Z.div2_spec, Z.shiftr_spec by lia. reflexivity.
Qed.

Lemma stored_bit_head (w : Z) (ws : list Z) (i : Z) :
  0 <= i < BITS_PER_ATOM -> stored_bit (w :: ws) i = Z.testbit w i.
Proof.
  intros Hi. unfold stored_bit.
  rewrite Z.div_small, Z.mod_small by exact Hi. reflexivity.
Qed.

Lemma stored_bit_tail (w : Z) (ws : list Z) (i : Z) :
  0 <= i -> stored_bit (w :: ws) (i + BITS_PER_ATOM) = stored_bit ws i.
Proof.
  intros Hi. unfold stored_bit.
  replace (i + BITS_PER_ATOM) with (i + 1 * BITS_PER_ATOM) by lia.
  rewrite Z.div_add, Z.mod_add by (unfold BITS_PER_ATOM; lia).
  assert (0 <= i / BITS_PER_ATOM) by (apply Z.div_pos; [lia | reflexivity]).
  rewrite Z2Nat.inj_add by lia. rewrite Nat.add_comm. reflexivity.
Qed.

(** The atoms together hold as many 1 bits as there are set positions in the
    storage. *)
Lemma sum_popcnt_count (ws : list Z) :
  Forall (fun w => 0 <= w <= BITSET_ATOM_MAX) ws ->
  sum_popcnt ws = count_indices (stored_bit ws) 0 (64 * length ws).
Proof.
  induction 1 as [| w ws Hw Hall IH]; [reflexivity |].
  cbn [sum_popcnt foldr length]. fold (sum_popcnt ws).
  replace (64 * S (length ws))%nat with (64 + 64 * length ws)%nat by lia.
  rewrite count_indices_app, IH. f_equal.
  - rewrite (bitset_atom_popcnt_count 64) by (unfold BITSET_ATOM_MAX in Hw; lia).
    apply count_indices_ext. intros i Hi.
    symmetry. apply stored_bit_head. unfold BITS_PER_ATOM. lia.
  - change (0 + Z.of_nat 64) with (0 + BITS_PER_ATOM).
    rewrite count_indices_shift. apply count_indices_ext.
    intros i Hi. symmetry. apply stored_bit_tail. lia.
Qed.

Lemma popcnt_loop_sum (ws : list Z) (k : nat) (i acc : Z) :
  0 <= i -> (Z.to_nat i + k <= length ws)%nat ->
  for_loop k i
    (fun j sum => w ← load (Block ws) j;
                  Ret (to_u64 (sum + bitset_atom_popcnt w))) (to_u64 acc)
  = Ret (to_u64 (acc + sum_popcnt (take k (drop (Z.to_nat i) ws)))).
Proof.
  revert i acc. induction k as [| k IH]; intros i acc Hi Hle.
  - cbn. rewrite Z.add_0_r. reflexivity.
  - destruct (lookup_lt_is_Some_2 ws (Z.to_nat i) ltac:(lia)) as [w Hw].
    cbn [for_loop]. rewrite (load_Some ws i w Hi Hw). cbn [mbind outcome_bind].
    replace (to_u64 (to_u64 acc + bitset_atom_popcnt w))
      with (to_u64 (acc + bitset_atom_popcnt w))
      by (unfold to_u64; rewrite Zplus_mod_idemp_l; reflexivity).
    rewrite IH by lia.
    rewrite (drop_S ws w (Z.to_nat i) Hw). cbn [take sum_popcnt foldr].
    replace (Z.to_nat (i + 1)) with (S (Z.to_nat i)) by lia.
    do 2 f_equal. fold (sum_popcnt (take k (drop (S (Z.to_nat i)) ws))). lia.
Qed.

(** With the padding tail zero, [bitset_popcnt] is the number of positions
    below [nbits] whose stored bit is 1. *)
Lemma bitset_popcnt_stored (bs : bitset_t) (ws : list Z) :
  initialized bs -> bits bs = Block ws ->
  (forall i, nbits bs <= i < BITS_PER_ATOM * natoms bs -> stored_bit ws i = false) ->
  bitset_popcnt bs = Ret (count_stored_ones ws (nbits bs)).
Proof.
  intros (Hn & Hnat & ws' & Hb' & Hlen & Hall) Hb Hpad.
  rewrite Hb in Hb'. injection Hb' as <-.
  unfold bitset_popcnt. rewrite Hb.
  change 0 with (to_u64 0) at 2.
  rewrite popcnt_loop_sum by (change (Z.to_nat 0) with 0%nat; lia).
  change (Z.to_nat 0) with 0%nat. rewrite drop_0, take_ge by lia.
  rewrite Z.add_0_l, sum_popcnt_count by exact Hall.
  pose proof (BITS_TO_NATOMS_ceil (nbits bs)) as Hc.
  pose proof (ceil_div_bounds (nbits bs) BITS_PER_ATOM ltac:(reflexivity)) as Hbd.
  rewrite <- Hc, <- Hnat in Hbd.
  unfold BITS_PER_ATOM in Hbd, Hpad. change (8 * 8) with 64 in Hbd, Hpad.
  replace (64 * length ws)%nat
    with (Z.to_nat (nbits bs) + Z.to_nat (64 * natoms bs - nbits bs))%nat by lia.
  rewrite count_indices_app, Z2Nat.id, Z.add_0_l by lia.
  rewrite (count_indices_false _ (nbits bs)) by (intros i Hi; apply Hpad; lia).
  rewrite Z.add_0_r. unfold count_stored_ones. f_equal.
  pose proof (count_indices_bounds (stored_bit ws) 0 (Z.to_nat (nbits bs))) as Hcnt.
  unfold to_u64. apply Z.mod_small. unfold SIZE_MAX in Hn. lia.
Qed.

(** Where its shift is defined, [bitset_get] reads the lowest bit of the atom
    that holds the index, whatever the index is within the atom. *)
Lemma bitset_get_reads_bit_0 (bs : bitset_t) (ws : list Z) (i : Z) :
  initialized bs -> bits bs = Block ws -> 0 <= i < nbits bs ->
  Z.land i BITS_PER_ATOM = 0 ->
  bitset_get bs i =
  Ret (Z.b2z (stored_bit ws (BITS_PER_ATOM * (i / BITS_PER_ATOM)))).
Proof.
  intros Hinit Hb Hi Hland.
  destruct (initialized_atom bs ws i Hinit Hb Hi) as [w Hw].
  rewrite (bitset_get_defined bs ws i w Hb Hi Hland Hw). f_equal.
  unfold stored_bit.
  rewrite Z.mul_comm, Z.div_mul, Z.mod_mul by (unfold BITS_PER_ATOM; lia).
  rewrite Hw.
  pose proof (Z.land_ones w 1 ltac:(lia)) as H1.
  change (Z.ones 1) with 1 in H1. change (2 ^ 1) with 2 in H1.
  rewrite H1. symmetry. apply Z.bit0_mod.
Qed.

(** C7. Code defect: after [bitset_init] with capacity 2 and [bitset_set] of
    bit 0, atom 0 has value 1 and every stored bit from position 1 on is
    zero, the padding included.  [bitset_popcnt] answers 1, the number of
    stored bits that are 1, but [bitset_get] answers 1 at both indices 0
    and 1, since it shifts the atom by [bit & BITS_PER_ATOM], which is 0 for
    both: the number of indices that read as 1 is 2. *)
Theorem bitset_popcnt_differs_from_get_count :
  bitset_set (snd (bitset_init true 2)) 0 = Ret (mk_bitset 2 1 (Block [1])) /\
  Forall (fun i => stored_bit [1] i = false) (seqZ 1 63) /\
  bitset_popcnt (mk_bitset 2 1 (Block [1])) = Ret 1 /\
  count_stored_ones [1] 2 = 1 /\
  bitset_get (mk_bitset 2 1 (Block [1])) 0 = Ret 1 /\
  bitset_get (mk_bitset 2 1 (Block [1])) 1 = Ret 1 /\
  count_get_ones (mk_bitset 2 1 (Block [1])) = 2.
Proof.
  repeat split; try (vm_compute; reflexivity).
  vm_compute. repeat constructor.
Qed.

(** ** Resizing *)



(** The atoms past the old size hold what the allocator left there. *)
Lemma realloc_atoms_new (old : list Z) (junk : nat -> Z) (n i : nat) :
  (length old <= i < n)%nat ->
  realloc_atoms old junk n !! i = Some (to_u64 (junk i)).
Proof.
  intros Hi. unfold realloc_atoms.
  rewrite lookup_app_r by (rewrite length_take; lia).
  rewrite length_take, Nat.min_r by lia.
  rewrite list_lookup_fmap, lookup_seq_lt by lia.
  replace (length old + (i - length old))%nat with i by lia.
  reflexivity.
Qed.

(** A successful [bitset_resize] of a live bitset: the new sizes, and the
    atoms of the old block at their indices. *)
Lemma bitset_resize_success (bs : bitset_t) (ws : list Z) (junk : nat -> Z) (n : Z) :
  bits bs = Block ws ->
  bitset_resize (ReallocBlock junk) bs n =
  Ret (0, mk_bitset n (BITS_TO_NATOMS n)
            (Block (realloc_atoms ws junk (Z.to_nat (BITS_TO_NATOMS n))))).
Proof. intros Hb. unfold bitset_resize. rewrite Hb. reflexivity. Qed.

(** C6. Code defect: [bitset_resize] does not clear what it adds.  Growing a
    fresh bitset from 128 to 192 bits gives a third atom with the content
    [realloc] left there, here 1, and [bitset_get] reads index 128 as 1.
    And with no new atom at all: after [bitset_set] of bit 0 in a bitset of
    capacity 1, growing to capacity 2 makes index 1 read as 1. *)
Theorem bitset_resize_new_bits_not_zero :
  bitset_resize (ReallocBlock (fun _ => 1)) (snd (bitset_init true 128)) 192
    = Ret (0, mk_bitset 192 3 (Block [0; 0; 1])) /\
  bitset_get (mk_bitset 192 3 (Block [0; 0; 1])) 128 = Ret 1 /\
  bitset_set (snd (bitset_init true 1)) 0 = Ret (mk_bitset 1 1 (Block [1])) /\
  (forall junk, bitset_resize (ReallocBlock junk) (mk_bitset 1 1 (Block [1])) 2
                = Ret (0, mk_bitset 2 1 (Block [1]))) /\
  bitset_get (mk_bitset 2 1 (Block [1])) 1 = Ret 1.
Proof.
  repeat split; try (vm_compute; reflexivity).
Qed.

(** When [realloc] returns a null pointer and leaves the old block, its
    answer to a request of non-zero size that it cannot satisfy,
    [bitset_resize] of an initialized bitset returns a non-zero value, -1,
    and leaves [nbits], [natoms] and every atom as they were. *)
Theorem bitset_resize_failure_keeps_bitset (bs : bitset_t) (n : Z) :
  initialized bs ->
  exists rc, bitset_resize ReallocNull bs n = Ret (rc, bs) /\ rc = -1 /\ rc <> 0.
Proof.
  intros (_ & _ & ws & Hb & _). unfold bitset_resize. rewrite Hb.
  cbn [mbind outcome_bind]. exists (-1). repeat split. discriminate.
Qed.

Lemma bitset_resize_failure_keeps_bitset_witness :
  initialized (snd (bitset_init true 10)) /\
  exists rc, bitset_resize ReallocNull (snd (bitset_init true 10)) 100
             = Ret (rc, snd (bitset_init true 10)) /\ rc = -1 /\ rc <> 0.
Proof.
  assert (H : initialized (snd (bitset_init true 10))).
  { apply initialized_init. unfold SIZE_MAX. lia. }
  split; [exact H |].
  exact (bitset_resize_failure_keeps_bitset (snd (bitset_init true 10)) 100 H).
Defined.

(** After the answer [ReallocFreed], [bitset_resize] of an initialized bitset
    returns -1 and leaves a struct that is not the one it was given: the
    sizes are kept and the block is freed. *)
Lemma bitset_resize_freed (bs : bitset_t) (n : Z) :
  initialized bs ->
  bitset_resize ReallocFreed bs n = Ret (-1, with_bits bs Freed) /\
  with_bits bs Freed <> bs.
Proof.
  intros (_ & _ & ws & Hb & _). unfold bitset_resize. rewrite Hb.
  cbn [mbind outcome_bind]. split; [reflexivity |].
  intros Heq. apply (f_equal bits) in Heq. cbn in Heq. congruence.
Qed.

(** C8. Code defect: [bitset_resize] to capacity 0 asks [realloc] for 0
    bytes.  glibc frees the block and returns a null pointer, and the code
    takes every null pointer for a failure: it returns -1, the struct keeps
    [nbits], [natoms] and the pointer to the block that was freed, and no
    atom is left.  A later [bitset_get], [bitset_popcnt] or [bitset_wipe] is
    a use of the freed block. *)
Theorem bitset_resize_to_zero_frees_block :
  BITS_TO_NATOMS 0 = 0 /\
  snd (bitset_init true 10) = mk_bitset 10 1 (Block [0]) /\
  bitset_resize ReallocFreed (mk_bitset 10 1 (Block [0])) 0
    = Ret (-1, mk_bitset 10 1 Freed) /\
  bitset_get (mk_bitset 10 1 Freed) 3 = Undefined /\
  bitset_popcnt (mk_bitset 10 1 Freed) = Undefined /\
  bitset_wipe (mk_bitset 10 1 Freed) = Undefined.
Proof. repeat split; vm_compute; reflexivity. Qed.

(** ** Sizes are kept *)

Lemma bind_Ret_inv {A B : Type} (m : outcome A) (f : A -> outcome B) (b : B) :
  m ≫= f = Ret b -> exists a, m = Ret a /\ f a = Ret b.
Proof.
  destruct m as [a | |]; cbn; intros H; try discriminate.
  exists a. split; [reflexivity | exact H].
Qed.

Ltac bind_inv H :=
  repeat match type of H with
  | _ ≫= _ = Ret _ =>
      let a := fresh "a" in
      let Ha := fresh "Ha" in
      apply bind_Ret_inv in H; destruct H as (a & Ha & H)
  end.

Lemma same_sizes_with_bits (bs : bitset_t) (b : buffer) : same_sizes bs (with_bits bs b).
Proof. split; reflexivity. Qed.

Lemma deref_Ret (st : gmap nat bitset_t) (p : nat) (bs : bitset_t) :
  deref st p = Ret bs -> st !! p = Some bs.
Proof. unfold deref. destruct (st !! p); intros [= ->]; reflexivity. Qed.

Lemma bitset_set_sizes (bs bs' : bitset_t) (bit : Z) :
  bitset_set bs bit = Ret bs' -> same_sizes bs bs'.
Proof.
  unfold bitset_set. intros H. bind_inv H.
  injection H as <-. apply same_sizes_with_bits.
Qed.

Lemma bitset_unset_sizes (bs bs' : bitset_t) (bit : Z) :
  bitset_unset bs bit = Ret bs' -> same_sizes bs bs'.
Proof.
  unfold bitset_unset. intros H. bind_inv H.
  injection H as <-. apply same_sizes_with_bits.
Qed.

Lemma bitset_set_bit_sizes (bs bs' : bitset_t) (idx bit : Z) :
  bitset_set_bit bs idx bit = Ret bs' -> same_sizes bs bs'.
Proof.
  unfold bitset_set_bit. intros H. bind_inv H.
  destruct (negb _); eauto using bitset_set_sizes, bitset_unset_sizes.
Qed.

Lemma inline_bitset_get_sizes (bs : bitset_t) (bit : Z) (gb : Z * bitset_t) :
  Inline.bitset_get bs bit = Ret gb -> same_sizes bs (snd gb).
Proof.
  unfold Inline.bitset_get. intros H. bind_inv H.
  injection H as <-. apply same_sizes_with_bits.
Qed.

Lemma same_sizes_trans (b1 b2 b3 : bitset_t) :
  same_sizes b1 b2 -> same_sizes b2 b3 -> same_sizes b1 b3.
Proof. unfold same_sizes. intros [] []. split; congruence. Qed.

Lemma inline_bitset_set_bit_sizes (bs bs' : bitset_t) (idx bit : Z) :
  Inline.bitset_set_bit bs idx bit = Ret bs' -> same_sizes bs bs'.
Proof.
  unfold Inline.bitset_set_bit. intros H. bind_inv H.
  destruct a as [g bs1].
  apply inline_bitset_get_sizes in Ha. cbn [snd] in Ha.
  eapply same_sizes_trans; [exact Ha |].
  destruct (negb _); eauto using bitset_set_sizes, bitset_unset_sizes.
Qed.

Lemma bitset_wipe_sizes (bs bs' : bitset_t) :
  bitset_wipe bs = Ret bs' -> same_sizes bs bs'.
Proof.
  unfold bitset_wipe.
  destruct (bits bs); intros [= <-]; split; reflexivity.
Qed.

Lemma sizes_insert (st : gmap nat bitset_t) (p : nat) (bs bs' : bitset_t) :
  st !! p = Some bs -> same_sizes bs bs' ->
  forall q, sizes (<[p := bs']> st) q = sizes st q.
Proof.
  intros Hp [Hn Ha] q. unfold sizes.
  destruct (decide (p = q)) as [<- | Hne].
  - rewrite lookup_insert_eq, Hp. cbn. congruence.
  - rewrite lookup_insert_ne by exact Hne. reflexivity.
Qed.

Lemma atoms_inv_sizes (st st' : gmap nat bitset_t) :
  (forall q, sizes st' q = sizes st q) -> atoms_inv st -> atoms_inv st'.
Proof.
  intros Hs Hinv p bs' Hp. specialize (Hs p). unfold sizes in Hs.
  rewrite Hp in Hs. cbn in Hs.
  destruct (st !! p) as [bs |] eqn:Hq; cbn in Hs; [| discriminate].
  injection Hs as -> ->. eapply Hinv. exact Hq.
Qed.

Lemma atoms_inv_insert (st : gmap nat bitset_t) (p : nat) (bs : bitset_t) :
  atoms_inv st -> natoms bs = BITS_TO_NATOMS (nbits bs) ->
  atoms_inv (<[p := bs]> st).
Proof.
  intros Hinv Hbs q bs' Hq.
  destruct (decide (p = q)) as [<- | Hne].
  - rewrite lookup_insert_eq in Hq. injection Hq as <-.
    rewrite Hbs. apply BITS_TO_NATOMS_ceil.
  - rewrite lookup_insert_ne in Hq by exact Hne. eapply Hinv. exact Hq.
Qed.

Lemma for_loop_preserves {S : Type} (I : S -> Prop) (body : Z -> S -> outcome S)
    (n : nat) (i : Z) (s s' : S) :
  (forall j t t', I t -> body j t = Ret t' -> I t') ->
  I s -> for_loop n i body s = Ret s' -> I s'.
Proof.
  intros Hbody. revert i s. induction n as [| n IH]; intros i s Hs H.
  - injection H as <-. exact Hs.
  - cbn [for_loop] in H. bind_inv H. eapply IH; [| exact H]. eauto.
Qed.

Lemma write_atom_sizes (st st' : gmap nat bitset_t) (p : nat) (i w : Z) :
  write_atom st p i w = Ret st' -> forall q, sizes st' q = sizes st q.
Proof.
  unfold write_atom. intros H. bind_inv H. injection H as <-.
  apply deref_Ret in Ha.
  eapply sizes_insert; [exact Ha | apply same_sizes_with_bits].
Qed.

Lemma atoms_zip_sizes (op : Z -> Z -> Z) (st st' : gmap nat bitset_t) (dest a b : nat) :
  atoms_zip op st dest a b = Ret st' -> forall q, sizes st' q = sizes st q.
Proof.
  unfold atoms_zip. intros H. bind_inv H.
  eapply (for_loop_preserves (fun t => forall q, sizes t q = sizes st q));
    [| | exact H]; [| reflexivity].
  intros j t t' Ht Hb q. cbv beta in Hb. bind_inv Hb.
  rewrite (write_atom_sizes _ _ _ _ _ Hb). apply Ht.
Qed.

Lemma bitset_copy_sizes (st st' : gmap nat bitset_t) (dest src : nat) :
  bitset_copy st dest src = Ret st' -> forall q, sizes st' q = sizes st q.
Proof.
  unfold bitset_copy. intros H. bind_inv H. injection H as <-.
  apply deref_Ret in Ha.
  eapply sizes_insert; [exact Ha | apply same_sizes_with_bits].
Qed.

(** A call that is neither [bitset_init] nor [bitset_resize] leaves the
    [nbits] and [natoms] of every struct as they were. *)
Lemma exec_sizes (c : call) (st st' : gmap nat bitset_t) :
  sizing c = false -> exec c st = Ret st' ->
  forall q, sizes st' q = sizes st q.
Proof.
  intros Hc H.
  destruct c; try discriminate Hc; cbn [exec] in H;
    eauto using bitset_copy_sizes;
    try (unfold bitset_and_to, bitset_or_to, bitset_and, bitset_or in H;
         bind_inv H; eauto using atoms_zip_sizes);
    try (bind_inv H; injection H as <-;
         match goal with Hd : deref _ _ = Ret _ |- _ => apply deref_Ret in Hd end;
         first [ reflexivity
               | eapply sizes_insert; [eassumption |];
                 eauto using bitset_set_sizes, bitset_unset_sizes, bitset_set_bit_sizes,
                   inline_bitset_get_sizes, inline_bitset_set_bit_sizes, bitset_wipe_sizes ]).
Qed.

Lemma exec_atoms_inv (c : call) (st st' : gmap nat bitset_t) :
  atoms_inv st -> exec c st = Ret st' -> atoms_inv st'.
Proof.
  intros Hinv H.
  destruct (sizing c) eqn:Hc.
  - destruct c; try discriminate Hc; cbn [exec] in H.
    + injection H as <-. apply atoms_inv_insert; [exact Hinv |].
      unfold bitset_init. destruct ok; reflexivity.
    + bind_inv H. injection H as <-. unfold bitset_resize in Ha0.
      bind_inv Ha0. destruct r; injection Ha0 as <-; cbn [snd].
      * rewrite insert_id by (apply deref_Ret; assumption). exact Hinv.
      * apply deref_Ret in Ha.
        eapply atoms_inv_sizes; [| exact Hinv].
        eapply sizes_insert; [exact Ha | apply same_sizes_with_bits].
      * apply atoms_inv_insert; [exact Hinv | reflexivity].
  - eapply atoms_inv_sizes; [| exact Hinv]. eapply exec_sizes; eassumption.
Qed.

Lemma run_atoms_inv (cs : list call) (st st' : gmap nat bitset_t) :
  atoms_inv st -> run cs st = Ret st' -> atoms_inv st'.
Proof.
  revert st. induction cs as [| c cs IH]; intros st Hinv H.
  - injection H as <-. exact Hinv.
  - cbn [run] in H. bind_inv H. eapply IH; [| exact H].
    eapply exec_atoms_inv; eassumption.
Qed.

Lemma for_loop_total {S : Type} (I : S -> Prop) (body : Z -> S -> outcome S)
    (n : nat) (i : Z) (s : S) :
  (forall j t, i <= j < i + Z.of_nat n -> I t -> exists t', body j t = Ret t' /\ I t') ->
  I s -> exists s', for_loop n i body s = Ret s' /\ I s'.
Proof.
  revert i s. induction n as [| n IH]; intros i s Hbody Hs.
  - exists s. split; [reflexivity | exact Hs].
  - destruct (Hbody i s ltac:(lia) Hs) as (t & Ht & HI).
    cbn [for_loop]. rewrite Ht. cbn [mbind outcome_bind].
    apply IH; [| exact HI].
    intros j u Hj. apply Hbody. lia.
Qed.

Lemma zip_inv_refl (dest : nat) (st : gmap nat bitset_t) : zip_inv dest st st.
Proof.
  split; [reflexivity |]. intros p bs Hp Hl.
  exists bs. repeat split; assumption.
Qed.

Lemma zip_inv_read (dest : nat) (st t : gmap nat bitset_t) (p : nat)
    (bs : bitset_t) (j : Z) :
  zip_inv dest st t -> st !! p = Some bs -> live bs -> 0 <= j < natoms bs ->
  exists x, read_atom t p j = Ret x.
Proof.
  intros [_ Hl] Hp Hlive Hj.
  destruct (Hl p bs Hp Hlive) as (bs' & Hp' & [_ Hnat] & ws & Hb & Hlen).
  destruct (lookup_lt_is_Some_2 ws (Z.to_nat j) ltac:(lia)) as [x Hx].
  exists x. unfold read_atom, deref. rewrite Hp'. cbn [mbind outcome_bind].
  rewrite Hb. apply load_Some; [lia | exact Hx].
Qed.

Lemma zip_inv_write (dest : nat) (st t : gmap nat bitset_t) (sd : bitset_t) (j w : Z) :
  zip_inv dest st t -> st !! dest = Some sd -> live sd -> 0 <= j < natoms sd ->
  exists t', write_atom t dest j w = Ret t' /\ zip_inv dest st t'.
Proof.
  intros [Hother Hl] Hp Hlive Hj.
  destruct (Hl dest sd Hp Hlive) as (bs' & Hp' & [Hnb Hnat] & ws & Hb & Hlen).
  destruct (lookup_lt_is_Some_2 ws (Z.to_nat j) ltac:(lia)) as [x Hx].
  eexists. split.
  - unfold write_atom, deref. rewrite Hp'. cbn [mbind outcome_bind].
    rewrite Hb, (store_atom_Some ws j x) by (lia || exact Hx). reflexivity.
  - split.
    + intros p Hne. rewrite lookup_insert_ne by congruence. apply Hother, Hne.
    + intros p bs Hq Hlq. destruct (decide (dest = p)) as [<- | Hne].
      * rewrite lookup_insert_eq. eexists. split; [reflexivity |].
        rewrite Hp in Hq. injection Hq as <-.
        split; [split; cbn; assumption |].
        eexists. split; [reflexivity |]. rewrite length_insert. cbn. lia.
      * rewrite lookup_insert_ne by exact Hne. apply Hl; assumption.
Qed.

Lemma zip_inv_frame (dest : nat) (st t : gmap nat bitset_t) (sd : bitset_t) :
  st !! dest = Some sd -> live sd -> zip_inv dest st t -> frame dest st t.
Proof.
  intros Hp Hlive [Hother Hl]. split; [exact Hother |].
  intros p. unfold sizes. destruct (decide (p = dest)) as [-> | Hne].
  - destruct (Hl dest sd Hp Hlive) as (bs' & Hp' & [Hnb Hnat] & _).
    rewrite Hp, Hp'. cbn. congruence.
  - rewrite Hother by exact Hne. reflexivity.
Qed.

Lemma atoms_zip_frame (op : Z -> Z -> Z) (st : gmap nat bitset_t)
    (dest a b : nat) (sd sa sb : bitset_t) :
  st !! dest = Some sd -> st !! a = Some sa -> st !! b = Some sb ->
  live sd -> live sa -> live sb ->
  natoms sa = natoms sb -> natoms sd = natoms sa ->
  exists st', atoms_zip op st dest a b = Ret st' /\ frame dest st st'.
Proof.
  intros Hd Ha Hb Ld La Lb Hab Hda.
  unfold atoms_zip, deref. rewrite Ha. cbn [mbind outcome_bind].
  assert (Hn : 0 <= natoms sa) by (destruct La as (ws & _ & <-); lia).
  destruct (for_loop_total (zip_inv dest st)
              (fun i t => x ← read_atom t a i; y ← read_atom t b i;
                          write_atom t dest i (op x y))
              (Z.to_nat (natoms sa)) 0 st) as (st' & Hrun & Hinv).
  - intros j t Hj Ht.
    destruct (zip_inv_read dest st t a sa j Ht Ha La ltac:(lia)) as [x ->].
    destruct (zip_inv_read dest st t b sb j Ht Hb Lb ltac:(lia)) as [y ->].
    cbn [mbind outcome_bind].
    apply (zip_inv_write dest st t sd j (op x y) Ht Hd Ld). lia.
  - apply zip_inv_refl.
  - exists st'. split; [exact Hrun |]. eapply zip_inv_frame; eassumption.
Qed.

Lemma bitset_copy_frame (st : gmap nat bitset_t) (dest src : nat) (sd ss : bitset_t) :
  st !! dest = Some sd -> st !! src = Some ss ->
  live sd -> live ss -> natoms sd = natoms ss ->
  exists st', bitset_copy st dest src = Ret st' /\ frame dest st st'.
Proof.
  intros Hd Hs (dws & Hdb & Hdl) (sws & Hsb & Hsl) Hn.
  unfold bitset_copy, deref. rewrite Hd, Hs. cbn [mbind outcome_bind].
  rewrite (proj2 (Z.eqb_eq _ _) Hn). cbn [c_assert mbind outcome_bind].
  rewrite Hdb, Hsb. unfold memcpy_atoms.
  rewrite (proj2 (Z.leb_le 0 (natoms ss))) by lia.
  rewrite (proj2 (Z.leb_le (natoms ss) (Z.of_nat (length dws)))) by lia.
  rewrite (proj2 (Z.leb_le (natoms ss) (Z.of_nat (length sws)))) by lia.
  cbn [andb mbind outcome_bind].
  eexists. split; [reflexivity |]. split.
  - intros p Hne. rewrite lookup_insert_ne by congruence. reflexivity.
  - apply (sizes_insert st dest sd); [exact Hd | apply same_sizes_with_bits].
Qed.

(** C9. In every store reached from the empty one by calls of the interface,
    and in the store after one more call, each struct has
    [natoms == ceil (nbits / bits_per_atom)]; and a call other than
    [bitset_init] and [bitset_resize] changes no [nbits] and no [natoms]. *)
Theorem natoms_is_ceil_of_nbits (cs : list call) (c : call)
    (st st' : gmap nat bitset_t) :
  run cs ∅ = Ret st -> exec c st = Ret st' ->
  atoms_inv st /\ atoms_inv st' /\
  (sizing c = false -> forall p, sizes st' p = sizes st p).
Proof.
  intros Hrun Hexec.
  assert (Hst : atoms_inv st).
  { eapply run_atoms_inv; [| exact Hrun]. intros p bs Hp.
    rewrite lookup_empty in Hp. discriminate. }
  split; [exact Hst |]. split.
  - eapply exec_atoms_inv; eassumption.
  - intros Hc. eapply exec_sizes; eassumption.
Qed.

Lemma natoms_is_ceil_of_nbits_witness :
  run [Init 0 10 true; Resize 0 130 (ReallocBlock (fun _ => 7))] ∅
    = Ret (<[0%nat := mk_bitset 130 3 (Block [0; 7; 7])]> ∅) /\
  exec (Unset 0 129) (<[0%nat := mk_bitset 130 3 (Block [0; 7; 7])]> ∅)
    = Ret (<[0%nat := mk_bitset 130 3 (Block [0; 7; 6])]> ∅) /\
  atoms_inv (<[0%nat := mk_bitset 130 3 (Block [0; 7; 6])]> ∅) /\
  sizes (<[0%nat := mk_bitset 130 3 (Block [0; 7; 6])]> ∅) 0%nat = Some (130, 3).
Proof.
  assert (Hrun : run [Init 0 10 true; Resize 0 130 (ReallocBlock (fun _ => 7))] ∅
                 = Ret (<[0%nat := mk_bitset 130 3 (Block [0; 7; 7])]> ∅)).
  { vm_compute. reflexivity. }
  assert (Hexec : exec (Unset 0 129) (<[0%nat := mk_bitset 130 3 (Block [0; 7; 7])]> ∅)
                  = Ret (<[0%nat := mk_bitset 130 3 (Block [0; 7; 6])]> ∅)).
  { vm_compute. reflexivity. }
  split; [exact Hrun |]. split; [exact Hexec |]. split.
  - exact (proj1 (proj2 (natoms_is_ceil_of_nbits _ _ _ _ Hrun Hexec))).
  - vm_compute. reflexivity.
Defined.

(** C10. For live operands with equal [natoms], each of [bitset_and_to],
    [bitset_or_to], [bitset_and], [bitset_or] and [bitset_copy] returns, and
    the store it leaves differs from the one it was given only in the atoms
    of its destination: every other struct is as it was, atoms included, and
    no struct has another [nbits] or [natoms].  The operands may be the same
    struct. *)
Theorem pairwise_operations_frame (st : gmap nat bitset_t)
    (dest a b : nat) (sd sa sb : bitset_t) :
  st !! dest = Some sd -> st !! a = Some sa -> st !! b = Some sb ->
  live sd -> live sa -> live sb ->
  natoms sa = natoms sb -> natoms sd = natoms sa ->
  (exists st', bitset_and_to st dest a b = Ret st' /\ frame dest st st') /\
  (exists st', bitset_or_to st dest a b = Ret st' /\ frame dest st st') /\
  (exists st', bitset_and st a b = Ret st' /\ frame a st st') /\
  (exists st', bitset_or st a b = Ret st' /\ frame a st st') /\
  (exists st', bitset_copy st dest a = Ret st' /\ frame dest st st').
Proof.
  intros Hd Ha Hb Ld La Lb Hab Hda.
  assert (Hq : forall x y : Z, x = y -> c_assert (x =? y) = Ret tt).
  { intros x y ->. rewrite Z.eqb_refl. reflexivity. }
  unfold bitset_and_to, bitset_or_to, bitset_and, bitset_or, deref.
  rewrite Hd, Ha, Hb. cbn [mbind outcome_bind].
  rewrite (Hq _ _ Hab), (Hq _ _ Hda). cbn [mbind outcome_bind].
  repeat split.
  - eapply atoms_zip_frame; eassumption.
  - eapply atoms_zip_frame; eassumption.
  - eapply (atoms_zip_frame Z.land st a a b); eauto.
  - eapply (atoms_zip_frame Z.lor st a a b); eauto.
  - eapply bitset_copy_frame; eassumption.
Qed.

Lemma pairwise_operations_frame_witness :
  exists st',
    bitset_and_to
      (<[3%nat := mk_bitset 70 2 (Block [5; 1])]>
         (<[2%nat := mk_bitset 70 2 (Block [3; 0])]>
            (<[1%nat := mk_bitset 70 2 (Block [0; 0])]> ∅))) 1 2 3 = Ret st' /\
    frame 1
      (<[3%nat := mk_bitset 70 2 (Block [5; 1])]>
         (<[2%nat := mk_bitset 70 2 (Block [3; 0])]>
            (<[1%nat := mk_bitset 70 2 (Block [0; 0])]> ∅))) st'.
Proof.
  refine (proj1 (pairwise_operations_frame _ 1%nat 2%nat 3%nat
                   (mk_bitset 70 2 (Block [0; 0]))
                   (mk_bitset 70 2 (Block [3; 0]))
                   (mk_bitset 70 2 (Block [5; 1])) _ _ _ _ _ _ _ _));
    try (vm_compute; reflexivity);
    eexists; split; reflexivity.
Defined.

(** * Further properties of the code *)

(** ** Single bits, again *)

Lemma land_64_testbit (x : Z) :
  Z.land x BITS_PER_ATOM = if Z.testbit x 6 then 64 else 0.
Proof.
  apply Z.bits_inj'. intros n Hn.
  rewrite Z.land_spec. change BITS_PER_ATOM with (2 ^ 6).
  rewrite Z.pow2_bits_eqb by lia.
  destruct (Z.eqb_spec 6 n) as [<- | Hne].
  - rewrite andb_true_r. destruct (Z.testbit x 6); reflexivity.
  - rewrite andb_false_r. destruct (Z.testbit x 6).
    + change 64 with (2 ^ 6). rewrite Z.pow2_bits_eqb by lia.
      symmetry. apply Z.eqb_neq. exact Hne.
    + symmetry. apply Z.bits_0.
Qed.

Lemma land_64_same_atom (i j : Z) :
  j / BITS_PER_ATOM = i / BITS_PER_ATOM ->
  Z.land j BITS_PER_ATOM = Z.land i BITS_PER_ATOM.
Proof.
  intros H. rewrite !land_64_testbit.
  replace (Z.testbit j 6) with (Z.testbit i 6); [reflexivity |].
  change 6 with (0 + 6).
  rewrite <- !Z.div_pow2_bits by lia.
  change (2 ^ 6) with BITS_PER_ATOM. rewrite H. reflexivity.
Qed.

Lemma bitset_get_other_atom (bs : bitset_t) (ws : list Z) (k : nat) (v j : Z) :
  bits bs = Block ws -> 0 <= j -> Z.to_nat (j / BITS_PER_ATOM) <> k ->
  bitset_get (with_bits bs (Block (<[k := v]> ws))) j = bitset_get bs j.
Proof.
  intros Hb Hj Hne. unfold bitset_get. cbn [nbits with_bits bits]. rewrite Hb.
  destruct (c_assert _); cbn [mbind outcome_bind]; try reflexivity.
  unfold load. rewrite list_lookup_insert_ne by congruence. reflexivity.
Qed.

(** X1. Where its shift is defined, [bitset_set] of an index makes every
    index of the same atom read as 1, and [bitset_unset] makes every index of
    the same atom read as 0; the indices of the other atoms read as before. *)
Theorem bitset_set_whole_atom (bs : bitset_t) (i j : Z) :
  initialized bs -> 0 <= i < nbits bs -> 0 <= j < nbits bs ->
  Z.land i BITS_PER_ATOM = 0 ->
  exists b1 b0,
    bitset_set bs i = Ret b1 /\ bitset_unset bs i = Ret b0 /\
    (j / BITS_PER_ATOM = i / BITS_PER_ATOM ->
       bitset_get b1 j = Ret 1 /\ bitset_get b0 j = Ret 0) /\
    (j / BITS_PER_ATOM <> i / BITS_PER_ATOM ->
       bitset_get b1 j = bitset_get bs j /\ bitset_get b0 j = bitset_get bs j).
Proof.
  intros Hinit Hi Hj Hland.
  pose proof Hinit as (Hn & Hnat & ws & Hb & Hlen & Hall).
  destruct (initialized_atom bs ws i Hinit Hb Hi) as [w Hw].
  pose proof (lookup_lt_Some _ _ _ Hw) as Hlt.
  do 2 eexists.
  split; [eapply bitset_set_defined; eauto |].
  split; [eapply bitset_unset_defined; eauto |].
  split.
  - intros Hsame.
    pose proof (land_64_same_atom i j Hsame) as Hlj. rewrite Hland in Hlj.
    split.
    + erewrite bitset_get_defined;
        [f_equal; apply land_lor_1 | reflexivity | exact Hj | exact Hlj |].
      rewrite Hsame. apply list_lookup_insert_eq. exact Hlt.
    + erewrite bitset_get_defined;
        [f_equal; apply land_clear_0 | reflexivity | exact Hj | exact Hlj |].
      rewrite Hsame. apply list_lookup_insert_eq. exact Hlt.
  - intros Hne.
    assert (Hk : Z.to_nat (j / BITS_PER_ATOM) <> Z.to_nat (i / BITS_PER_ATOM)).
    { pose proof (atom_index_nonneg i (proj1 Hi)).
      pose proof (atom_index_nonneg j (proj1 Hj)). lia. }
    split; apply bitset_get_other_atom; auto; lia.
Qed.

Lemma bitset_set_whole_atom_witness :
  exists b1 b0,
    bitset_set (snd (bitset_init true 10)) 3 = Ret b1 /\
    bitset_unset (snd (bitset_init true 10)) 3 = Ret b0 /\
    bitset_get b1 7 = Ret 1 /\ bitset_get b0 7 = Ret 0.
Proof.
  destruct (bitset_set_whole_atom (snd (bitset_init true 10)) 3 7)
    as (b1 & b0 & H1 & H0 & Hsame & _).
  - apply initialized_init. unfold SIZE_MAX. lia.
  - cbn. lia.
  - cbn. lia.
  - reflexivity.
  - exists b1, b0. split; [exact H1 |]. split; [exact H0 |].
    apply Hsame. reflexivity.
Defined.

Lemma bitset_set_inv (bs bs' : bitset_t) (bit : Z) :
  bitset_set bs bit = Ret bs' ->
  exists ws w,
    bits bs = Block ws /\ bit < nbits bs /\ 0 <= bit / BITS_PER_ATOM /\
    Z.land bit BITS_PER_ATOM = 0 /\
    ws !! Z.to_nat (bit / BITS_PER_ATOM) = Some w /\
    bs' = with_bits bs (Block (<[Z.to_nat (bit / BITS_PER_ATOM) := Z.lor w 1]> ws)).
Proof.
  unfold bitset_set. intros H.
  destruct (Z.ltb_spec bit (nbits bs)) as [Hlt | Hge]; [| discriminate].
  cbn [c_assert mbind outcome_bind] in H.
  rewrite land_64_testbit in *.
  destruct (Z.testbit bit 6); [discriminate |].
  change (shl_int 1 0) with (Ret 1 : outcome Z) in H.
  cbn [mbind outcome_bind] in H. change (to_u64 1) with 1 in H.
  destruct (bits bs) as [| | ws] eqn:Hb; try discriminate.
  unfold load in H.
  destruct (Z.leb_spec 0 (bit / BITS_PER_ATOM)) as [H0 | H0]; [| discriminate].
  destruct (ws !! Z.to_nat (bit / BITS_PER_ATOM)) as [w |] eqn:Hw; [| discriminate].
  cbn [mbind outcome_bind] in H.
  rewrite (store_atom_Some ws _ w) in H by assumption.
  cbn [mbind outcome_bind] in H. injection H as <-.
  exists ws, w. repeat split; auto.
Qed.

Lemma bitset_unset_inv (bs bs' : bitset_t) (bit : Z) :
  bitset_unset bs bit = Ret bs' ->
  exists ws w,
    bits bs = Block ws /\ bit < nbits bs /\ 0 <= bit / BITS_PER_ATOM /\
    Z.land bit BITS_PER_ATOM = 0 /\
    ws !! Z.to_nat (bit / BITS_PER_ATOM) = Some w /\
    bs' = with_bits bs (Block (<[Z.to_nat (bit / BITS_PER_ATOM) :=
                                  Z.land w (to_u64 (Z.lnot 1))]> ws)).
Proof.
  unfold bitset_unset. intros H.
  destruct (Z.ltb_spec bit (nbits bs)) as [Hlt | Hge]; [| discriminate].
  cbn [c_assert mbind outcome_bind] in H.
  rewrite land_64_testbit in *.
  destruct (Z.testbit bit 6); [discriminate |].
  change (shl_int 1 0) with (Ret 1 : outcome Z) in H.
  cbn [mbind outcome_bind] in H.
  destruct (bits bs) as [| | ws] eqn:Hb; try discriminate.
  unfold load in H.
  destruct (Z.leb_spec 0 (bit / BITS_PER_ATOM)) as [H0 | H0]; [| discriminate].
  destruct (ws !! Z.to_nat (bit / BITS_PER_ATOM)) as [w |] eqn:Hw; [| discriminate].
  cbn [mbind outcome_bind] in H.
  rewrite (store_atom_Some ws _ w) in H by assumption.
  cbn [mbind outcome_bind] in H. injection H as <-.
  exists ws, w. repeat split; auto.
Qed.

Lemma with_bits_with_bits (bs : bitset_t) (b b' : buffer) :
  with_bits (with_bits bs b) b' = with_bits bs b'.
Proof. reflexivity. Qed.

(** The accesses of [bitset_set] and [bitset_unset] on a struct whose atom
    [k] was just written. *)
Lemma set_unset_after_write (bs : bitset_t) (ws : list Z) (bit w v : Z) :
  bit < nbits bs -> 0 <= bit / BITS_PER_ATOM ->
  Z.land bit BITS_PER_ATOM = 0 ->
  ws !! Z.to_nat (bit / BITS_PER_ATOM) = Some w ->
  bitset_set (with_bits bs (Block (<[Z.to_nat (bit / BITS_PER_ATOM) := v]> ws))) bit
    = Ret (with_bits bs (Block (<[Z.to_nat (bit / BITS_PER_ATOM) := Z.lor v 1]> ws))) /\
  bitset_unset (with_bits bs (Block (<[Z.to_nat (bit / BITS_PER_ATOM) := v]> ws))) bit
    = Ret (with_bits bs (Block (<[Z.to_nat (bit / BITS_PER_ATOM) :=
                                   Z.land v (to_u64 (Z.lnot 1))]> ws))).
Proof.
  intros Hlt H0 Hland Hw.
  pose proof (lookup_lt_Some _ _ _ Hw) as Hk.
  assert (Hv : <[Z.to_nat (bit / BITS_PER_ATOM) := v]> ws
               !! Z.to_nat (bit / BITS_PER_ATOM) = Some v)
    by (apply list_lookup_insert_eq; exact Hk).
  unfold bitset_set, bitset_unset. cbn [nbits bits with_bits].
  rewrite (proj2 (Z.ltb_lt _ _) Hlt), Hland.
  change (shl_int 1 0) with (Ret 1 : outcome Z). change (to_u64 1) with 1.
  cbn [c_assert mbind outcome_bind].
  rewrite (load_Some _ _ v H0 Hv). cbn [mbind outcome_bind].
  rewrite !(store_atom_Some _ _ v) by assumption.
  cbn [mbind outcome_bind]. rewrite !list_insert_insert_eq. split; reflexivity.
Qed.

Lemma lor_1_idem (w : Z) : Z.lor (Z.lor w 1) 1 = Z.lor w 1.
Proof. rewrite <- Z.lor_assoc. reflexivity. Qed.

Lemma land_mask_idem (w : Z) :
  Z.land (Z.land w (to_u64 (Z.lnot 1))) (to_u64 (Z.lnot 1)) = Z.land w (to_u64 (Z.lnot 1)).
Proof. rewrite <- Z.land_assoc, Z.land_diag. reflexivity. Qed.

Lemma land_mask_lor_1 (w : Z) :
  Z.land (Z.lor w 1) (to_u64 (Z.lnot 1)) = Z.land w (to_u64 (Z.lnot 1)).
Proof.
  rewrite Z.land_lor_distr_l.
  replace (Z.land 1 (to_u64 (Z.lnot 1))) with 0 by (vm_compute; reflexivity).
  apply Z.lor_0_r.
Qed.

(** X2. [bitset_set] and [bitset_unset] are idempotent, and the later of the
    two decides: [bitset_unset] after [bitset_set] leaves what [bitset_unset]
    alone leaves. *)
Theorem bitset_set_unset_compose (bs b1 b0 : bitset_t) (bit : Z) :
  bitset_set bs bit = Ret b1 -> bitset_unset bs bit = Ret b0 ->
  bitset_set b1 bit = Ret b1 /\
  bitset_unset b0 bit = Ret b0 /\
  bitset_unset b1 bit = Ret b0.
Proof.
  intros H1 H0.
  apply bitset_set_inv in H1 as (ws & w & Hb & Hlt & Hi & Hland & Hw & ->).
  apply bitset_unset_inv in H0 as (ws' & w' & Hb' & _ & _ & _ & Hw' & ->).
  rewrite Hb in Hb'. injection Hb' as <-. rewrite Hw in Hw'. injection Hw' as <-.
  pose proof (set_unset_after_write bs ws bit w (Z.lor w 1) Hlt Hi Hland Hw) as [Hs Hu].
  pose proof (set_unset_after_write bs ws bit w (Z.land w (to_u64 (Z.lnot 1)))
                Hlt Hi Hland Hw) as [_ Hu'].
  rewrite Hs, Hu, Hu', lor_1_idem, land_mask_idem, land_mask_lor_1.
  repeat split.
Qed.

Lemma bitset_set_unset_compose_witness :
  bitset_set (mk_bitset 10 1 (Block [1])) 3 = Ret (mk_bitset 10 1 (Block [1])) /\
  bitset_unset (mk_bitset 10 1 (Block [0])) 3 = Ret (mk_bitset 10 1 (Block [0])) /\
  bitset_unset (mk_bitset 10 1 (Block [1])) 3 = Ret (mk_bitset 10 1 (Block [0])).
Proof.
  apply (bitset_set_unset_compose (mk_bitset 10 1 (Block [0]))
           (mk_bitset 10 1 (Block [1])) (mk_bitset 10 1 (Block [0])) 3);
    vm_compute; reflexivity.
Defined.

Lemma one_bits (n : Z) : 0 <= n -> Z.testbit 1 n = (n =? 0).
Proof.
  intros Hn. destruct (Z.eqb_spec n 0) as [-> | Hne]; [reflexivity |].
  apply (Z.bits_above_log2 1 n); cbn; lia.
Qed.

Lemma unset_mask_bits (n : Z) :
  0 <= n -> Z.testbit (to_u64 (Z.lnot 1)) n = negb (n =? 0) && (n <? 64).
Proof.
  intros Hn. unfold to_u64.
  destruct (Z.ltb_spec n 64) as [Hlt | Hge].
  - rewrite Z.mod_pow2_bits_low, Z.lnot_spec, one_bits by lia.
    rewrite andb_true_r. reflexivity.
  - rewrite Z.mod_pow2_bits_high by lia. rewrite andb_false_r. reflexivity.
Qed.

Lemma atom_high_bits (w n : Z) :
  0 <= w <= BITSET_ATOM_MAX -> 64 <= n -> Z.testbit w n = false.
Proof.
  intros Hw Hn. destruct (Z.eq_dec w 0) as [-> | Hw0]; [apply Z.bits_0 |].
  apply Z.bits_above_log2; [lia |].
  apply Z.log2_lt_pow2; [lia |].
  unfold BITSET_ATOM_MAX in Hw.
  assert (2 ^ 64 <= 2 ^ n) by (apply Z.pow_le_mono_r; lia). lia.
Qed.

Lemma land_1_testbit (w : Z) : Z.land w 1 = Z.b2z (Z.testbit w 0).
Proof.
  pose proof (Z.land_ones w 1 ltac:(lia)) as H1.
  change (Z.ones 1) with 1 in H1. change (2 ^ 1) with 2 in H1.
  rewrite H1. symmetry. apply Z.bit0_mod.
Qed.

Lemma lor_1_after_clear (w : Z) :
  0 <= w <= BITSET_ATOM_MAX -> Z.land w 1 = 1 ->
  Z.lor (Z.land w (to_u64 (Z.lnot 1))) 1 = w.
Proof.
  intros Hw H1. rewrite land_1_testbit in H1.
  apply Z.bits_inj'. intros n Hn.
  rewrite Z.lor_spec, Z.land_spec, unset_mask_bits, one_bits by lia.
  destruct (Z.eqb_spec n 0) as [-> | Hne].
  - destruct (Z.testbit w 0); [reflexivity | discriminate].
  - destruct (Z.ltb_spec n 64) as [Hlt | Hge]; cbn [negb andb].
    + rewrite andb_true_r, orb_false_r. reflexivity.
    + rewrite (atom_high_bits w n Hw Hge). reflexivity.
Qed.

Lemma land_mask_after_set (w : Z) :
  0 <= w <= BITSET_ATOM_MAX -> Z.land w 1 = 0 ->
  Z.land (Z.lor w 1) (to_u64 (Z.lnot 1)) = w.
Proof.
  intros Hw H0. rewrite land_1_testbit in H0. rewrite land_mask_lor_1.
  apply Z.bits_inj'. intros n Hn.
  rewrite Z.land_spec, unset_mask_bits by lia.
  destruct (Z.eqb_spec n 0) as [-> | Hne].
  - destruct (Z.testbit w 0); [discriminate | reflexivity].
  - destruct (Z.ltb_spec n 64) as [Hlt | Hge]; cbn [negb andb].
    + apply andb_true_r.
    + rewrite (atom_high_bits w n Hw Hge). reflexivity.
Qed.

(** X3. Where its shift is defined, [bitset_set_bit] applied twice gives the
    bitset back, whatever the two values passed are. *)
Theorem bitset_set_bit_twice (bs : bitset_t) (idx v v' : Z) :
  initialized bs -> 0 <= idx < nbits bs -> Z.land idx BITS_PER_ATOM = 0 ->
  exists bs1, bitset_set_bit bs idx v = Ret bs1 /\ bs1 <> bs /\
              bitset_set_bit bs1 idx v' = Ret bs.
Proof.
  intros Hinit Hi Hland.
  pose proof Hinit as (Hn & Hnat & ws & Hb & Hlen & Hall).
  destruct (initialized_atom bs ws idx Hinit Hb Hi) as [w Hw].
  pose proof (lookup_lt_Some _ _ _ Hw) as Hk.
  assert (Hwr : 0 <= w <= BITSET_ATOM_MAX).
  { rewrite Forall_lookup in Hall. exact (Hall _ _ Hw). }
  assert (H0 : 0 <= idx / BITS_PER_ATOM) by (apply atom_index_nonneg; lia).
  assert (Hbs : with_bits bs (Block ws) = bs).
  { destruct bs as [nb na b]. cbn in Hb |- *. rewrite Hb. reflexivity. }
  set (k := Z.to_nat (idx / BITS_PER_ATOM)) in *.
  assert (Hget : forall v0, <[k := v0]> ws !! k = Some v0)
    by (intros v0; apply list_lookup_insert_eq; exact Hk).
  assert (Hneq : forall v0, v0 <> w -> with_bits bs (Block (<[k := v0]> ws)) <> bs).
  { intros v0 Hv0 Heq. apply (f_equal bits) in Heq. cbn in Heq.
    rewrite Hb in Heq. injection Heq as Heq.
    apply (f_equal (fun l => l !! k)) in Heq. rewrite Hget, Hw in Heq. congruence. }
  unfold bitset_set_bit.
  rewrite (bitset_get_defined bs ws idx w Hb Hi Hland Hw). cbn [mbind outcome_bind].
  destruct (land_1_cases w) as [Hz | Ho]; rewrite ?Hz, ?Ho; cbn [Z.eqb negb].
  - rewrite (bitset_set_defined bs ws idx w Hb Hi Hland Hw). fold k.
    eexists. split; [reflexivity |]. split.
    + apply Hneq. intros Heq. rewrite <- Heq, land_lor_1 in Hz. discriminate.
    + erewrite bitset_get_defined;
        [| reflexivity | exact Hi | exact Hland | apply Hget].
      rewrite land_lor_1. cbn [mbind outcome_bind Z.eqb negb].
      destruct (set_unset_after_write bs ws idx w (Z.lor w 1)
                  (proj2 Hi) H0 Hland Hw) as [_ Hu].
      fold k in Hu. rewrite Hu, land_mask_after_set by assumption.
      rewrite list_insert_id by exact Hw. rewrite Hbs. reflexivity.
  - rewrite (bitset_unset_defined bs ws idx w Hb Hi Hland Hw). fold k.
    eexists. split; [reflexivity |]. split.
    + apply Hneq. intros Heq. rewrite <- Heq, land_clear_0 in Ho. discriminate.
    + erewrite bitset_get_defined;
        [| reflexivity | exact Hi | exact Hland | apply Hget].
      rewrite land_clear_0. cbn [mbind outcome_bind Z.eqb negb].
      destruct (set_unset_after_write bs ws idx w (Z.land w (to_u64 (Z.lnot 1)))
                  (proj2 Hi) H0 Hland Hw) as [Hs _].
      fold k in Hs. rewrite Hs, lor_1_after_clear by assumption.
      rewrite list_insert_id by exact Hw. rewrite Hbs. reflexivity.
Qed.

Lemma bitset_set_bit_twice_witness :
  exists bs1, bitset_set_bit (snd (bitset_init true 10)) 5 1 = Ret bs1 /\
              bs1 <> snd (bitset_init true 10) /\
              bitset_set_bit bs1 5 1 = Ret (snd (bitset_init true 10)).
Proof.
  apply (bitset_set_bit_twice (snd (bitset_init true 10)) 5 1 1).
  - apply initialized_init. unfold SIZE_MAX. lia.
  - cbn. lia.
  - reflexivity.
Defined.

Lemma to_bit_t_odd (w : Z) : to_bit_t (Z.lor w 1) <> 0.
Proof.
  unfold to_bit_t. intros H.
  apply (f_equal (fun z => Z.testbit z 0)) in H.
  rewrite Z.mod_pow2_bits_low, Z.lor_spec in H by lia.
  rewrite orb_true_r in H. discriminate.
Qed.

(** X4. Where its shift is defined, the [inline] [bitset_get] of the header
    never answers 0 and leaves the bit reading as 1, and the [inline]
    [bitset_set_bit], which calls it, leaves the bit reading as 0 whatever
    the value passed and whatever the bit was. *)
Theorem inline_get_sets_set_bit_clears (bs : bitset_t) (idx v : Z) :
  initialized bs -> 0 <= idx < nbits bs -> Z.land idx BITS_PER_ATOM = 0 ->
  (exists g bs1, Inline.bitset_get bs idx = Ret (g, bs1) /\ g <> 0 /\
                 bitset_get bs1 idx = Ret 1) /\
  (exists bs2, Inline.bitset_set_bit bs idx v = Ret bs2 /\
               bitset_get bs2 idx = Ret 0).
Proof.
  intros Hinit Hi Hland.
  pose proof Hinit as (Hn & Hnat & ws & Hb & Hlen & Hall).
  destruct (initialized_atom bs ws idx Hinit Hb Hi) as [w Hw].
  pose proof (lookup_lt_Some _ _ _ Hw) as Hk.
  assert (H0 : 0 <= idx / BITS_PER_ATOM) by (apply atom_index_nonneg; lia).
  assert (Hg : Inline.bitset_get bs idx =
               Ret (to_bit_t (Z.lor w 1),
                    with_bits bs (Block (<[Z.to_nat (idx / BITS_PER_ATOM) := Z.lor w 1]> ws)))).
  { unfold Inline.bitset_get.
    rewrite (proj2 (Z.ltb_lt _ _) (proj2 Hi)), Hland, Hb.
    change (shl_int 1 0) with (Ret 1 : outcome Z). change (to_u64 1) with 1.
    cbn [c_assert mbind outcome_bind].
    rewrite (load_Some ws _ w H0 Hw). cbn [mbind outcome_bind].
    rewrite (store_atom_Some ws _ w) by assumption. reflexivity. }
  split.
  - do 2 eexists. split; [exact Hg |]. split; [apply to_bit_t_odd |].
    erewrite bitset_get_defined;
      [f_equal; apply land_lor_1 | reflexivity | exact Hi | exact Hland
      | apply list_lookup_insert_eq; exact Hk].
  - unfold Inline.bitset_set_bit. rewrite Hg. cbn [mbind outcome_bind].
    rewrite (proj2 (Z.eqb_neq _ _) (to_bit_t_odd w)). cbn [negb].
    destruct (set_unset_after_write bs ws idx w (Z.lor w 1)
                (proj2 Hi) H0 Hland Hw) as [_ Hu].
    rewrite Hu. eexists. split; [reflexivity |].
    erewrite bitset_get_defined;
      [f_equal; apply land_clear_0 | reflexivity | exact Hi | exact Hland
      | apply list_lookup_insert_eq; exact Hk].
Qed.

Lemma inline_get_sets_set_bit_clears_witness :
  (exists g bs1, Inline.bitset_get (snd (bitset_init true 10)) 5 = Ret (g, bs1) /\
                 g <> 0 /\ bitset_get bs1 5 = Ret 1) /\
  (exists bs2, Inline.bitset_set_bit (snd (bitset_init true 10)) 5 1 = Ret bs2 /\
               bitset_get bs2 5 = Ret 0).
Proof.
  apply (inline_get_sets_set_bit_clears (snd (bitset_init true 10)) 5 1).
  - apply initialized_init. unfold SIZE_MAX. lia.
  - cbn. lia.
  - reflexivity.
Defined.

(** X5. An index that is not below [nbits] stops [bitset_set],
    [bitset_unset], [bitset_get] and [bitset_set_bit], in [bitset.c] and in
    the header alike, at their assertion: before any shift and before any
    access to the block, whatever state the block is in. *)
Theorem index_out_of_range_asserts (bs : bitset_t) (bit v : Z) :
  nbits bs <= bit ->
  bitset_set bs bit = AssertFail /\
  bitset_unset bs bit = AssertFail /\
  bitset_get bs bit = AssertFail /\
  bitset_set_bit bs bit v = AssertFail /\
  Inline.bitset_get bs bit = AssertFail /\
  Inline.bitset_set_bit bs bit v = AssertFail.
Proof.
  intros Hge.
  unfold bitset_set_bit, Inline.bitset_set_bit, Inline.bitset_get,
    bitset_set, bitset_unset, bitset_get.
  rewrite (proj2 (Z.ltb_ge bit (nbits bs)) Hge).
  repeat split.
Qed.

Lemma index_out_of_range_asserts_witness :
  bitset_set (mk_bitset 10 1 Freed) 10 = AssertFail /\
  bitset_unset (mk_bitset 10 1 Freed) 10 = AssertFail /\
  bitset_get (mk_bitset 10 1 Freed) 10 = AssertFail /\
  bitset_set_bit (mk_bitset 10 1 Freed) 10 1 = AssertFail /\
  Inline.bitset_get (mk_bitset 10 1 Freed) 10 = AssertFail /\
  Inline.bitset_set_bit (mk_bitset 10 1 Freed) 10 1 = AssertFail.
Proof.
  apply (index_out_of_range_asserts (mk_bitset 10 1 Freed) 10 1). cbn. lia.
Defined.



(** ** Lifecycle *)







Lemma realloc_atoms_same (ws : list Z) (junk : nat -> Z) :
  realloc_atoms ws junk (length ws) = ws.
Proof.
  unfold realloc_atoms. rewrite take_ge, Nat.sub_diag by lia.
  cbn. apply app_nil_r.
Qed.

(** X9. A successful [bitset_resize] to a capacity that needs the number of
    atoms the bitset has changes [nbits] and nothing else: every atom keeps
    its value, the bits of the former padding included. *)
Theorem bitset_resize_same_natoms (bs : bitset_t) (junk : nat -> Z) (n : Z) :
  initialized bs -> BITS_TO_NATOMS n = natoms bs ->
  bitset_resize (ReallocBlock junk) bs n = Ret (0, mk_bitset n (natoms bs) (bits bs)).
Proof.
  intros (_ & _ & ws & Hb & Hlen & _) Hn.
  rewrite (bitset_resize_success bs ws junk n Hb), Hn, Hb.
  replace (Z.to_nat (natoms bs)) with (length ws) by lia.
  rewrite realloc_atoms_same. reflexivity.
Qed.

Lemma bitset_resize_same_natoms_witness :
  bitset_resize (ReallocBlock (fun _ => 9)) (mk_bitset 10 1 (Block [1024])) 11
    = Ret (0, mk_bitset 11 1 (Block [1024])).
Proof.
  apply (bitset_resize_same_natoms (mk_bitset 10 1 (Block [1024])) (fun _ => 9) 11).
  - split; [cbn; unfold SIZE_MAX; lia |]. split; [reflexivity |].
    exists [1024]. split; [reflexivity |]. split; [reflexivity |].
    repeat constructor; unfold BITSET_ATOM_MAX; lia.
  - reflexivity.
Defined.

(** ** What the set functions compute *)

Lemma for_loop_indexed {S : Type} (I : nat -> S -> Prop) (body : Z -> S -> outcome S)
    (n j0 : nat) (s : S) :
  (forall j t, (j0 <= j < j0 + n)%nat -> I j t ->
     exists t', body (Z.of_nat j) t = Ret t' /\ I (Datatypes.S j) t') ->
  I j0 s ->
  exists s', for_loop n (Z.of_nat j0) body s = Ret s' /\ I (j0 + n)%nat s'.
Proof.
  revert j0 s. induction n as [| n IH]; intros j0 s Hbody Hs.
  - exists s. rewrite Nat.add_0_r. split; [reflexivity | exact Hs].
  - destruct (Hbody j0 s ltac:(lia) Hs) as (t & Ht & HI).
    cbn [for_loop]. rewrite Ht. cbn [mbind outcome_bind].
    replace (Z.of_nat j0 + 1) with (Z.of_nat (Datatypes.S j0)) by lia.
    replace (j0 + Datatypes.S n)%nat with (Datatypes.S j0 + n)%nat by lia.
    apply IH; [| exact HI].
    intros j u Hj. apply Hbody. lia.
Qed.

Lemma with_bits_id (bs : bitset_t) : with_bits bs (bits bs) = bs.
Proof. destruct bs; reflexivity. Qed.

Lemma insert_take_drop {A : Type} (zs ds : list A) (j : nat) (v : A) :
  zs !! j = Some v -> (j < length ds)%nat ->
  <[j := v]> (take j zs ++ drop j ds) = take (Datatypes.S j) zs ++ drop (Datatypes.S j) ds.
Proof.
  intros Hz Hd.
  pose proof (lookup_lt_Some _ _ _ Hz) as Hlz.
  destruct (lookup_lt_is_Some_2 ds j Hd) as [d Hdj].
  rewrite insert_app_r_alt by (rewrite length_take; lia).
  rewrite length_take, Nat.min_l, Nat.sub_diag by lia.
  rewrite (drop_S ds d j Hdj). cbn [list_insert].
  rewrite (take_S_r zs j v Hz), <- app_assoc. reflexivity.
Qed.

(** The loop of the set functions leaves in [dest] the atoms of [a] and [b]
    combined one by one, also when [dest] is [a] or [b]. *)
Lemma atoms_zip_result (op : Z -> Z -> Z) (st : gmap nat bitset_t)
    (dest a b : nat) (sd sa sb : bitset_t) (dws aws bws : list Z) :
  st !! dest = Some sd -> st !! a = Some sa -> st !! b = Some sb ->
  bits sd = Block dws -> bits sa = Block aws -> bits sb = Block bws ->
  Z.of_nat (length aws) = natoms sa ->
  length bws = length aws -> length dws = length aws ->
  atoms_zip op st dest a b =
  Ret (<[dest := with_bits sd (Block (zip_with op aws bws))]> st).
Proof.
  intros Hd Ha Hb Bd Ba Bb Hn Hlb Hld.
  set (zs := zip_with op aws bws).
  assert (Hlz : length zs = length aws).
  { unfold zs. rewrite length_zip_with. lia. }
  set (I := fun (j : nat) (t : gmap nat bitset_t) =>
              t = <[dest := with_bits sd (Block (take j zs ++ drop j dws))]> st).
  assert (Hread : forall p sp pws j x,
            st !! p = Some sp -> bits sp = Block pws -> length pws = length aws ->
            (j < length aws)%nat -> pws !! j = Some x ->
            read_atom (<[dest := with_bits sd (Block (take j zs ++ drop j dws))]> st)
              p (Z.of_nat j) = Ret x).
  { intros p sp pws j x Hp Bp Hlp Hj Hx. unfold read_atom, deref.
    destruct (decide (dest = p)) as [<- | Hne].
    - rewrite lookup_insert_eq. cbn [mbind outcome_bind bits with_bits].
      rewrite Hd in Hp. injection Hp as <-. rewrite Bd in Bp. injection Bp as <-.
      apply load_Some; [lia |]. rewrite Nat2Z.id.
      rewrite lookup_app_r by (rewrite length_take; lia).
      rewrite length_take, Nat.min_l, Nat.sub_diag by lia.
      rewrite lookup_drop, Nat.add_0_r. exact Hx.
    - rewrite lookup_insert_ne by exact Hne. rewrite Hp.
      cbn [mbind outcome_bind]. rewrite Bp.
      apply load_Some; [lia |]. rewrite Nat2Z.id. exact Hx. }
  unfold atoms_zip, deref. rewrite Ha. cbn [mbind outcome_bind].
  rewrite <- Hn, Nat2Z.id.
  destruct (for_loop_indexed I
              (fun i t => x ← read_atom t a i; y ← read_atom t b i;
                          write_atom t dest i (op x y))
              (length aws) 0 st) as (st' & Hrun & Hfin).
  - intros j t Hj Ht. unfold I in Ht. subst t.
    destruct (lookup_lt_is_Some_2 aws j ltac:(lia)) as [x Hx].
    destruct (lookup_lt_is_Some_2 bws j ltac:(lia)) as [y Hy].
    rewrite (Hread a sa aws j x Ha Ba eq_refl ltac:(lia) Hx).
    cbn [mbind outcome_bind].
    rewrite (Hread b sb bws j y Hb Bb Hlb ltac:(lia) Hy).
    cbn [mbind outcome_bind].
    unfold write_atom, deref. rewrite lookup_insert_eq.
    cbn [mbind outcome_bind bits with_bits].
    assert (Hzj : zs !! j = Some (op x y)).
    { unfold zs. rewrite lookup_zip_with, Hx, Hy. reflexivity. }
    destruct (lookup_lt_is_Some_2 (take j zs ++ drop j dws) j) as [u Hu].
    { rewrite length_app, length_take, length_drop. lia. }
    rewrite (store_atom_Some _ (Z.of_nat j) u) by (rewrite ?Nat2Z.id; auto; lia).
    cbn [mbind outcome_bind]. eexists. split; [reflexivity |].
    unfold I. rewrite insert_insert_eq, Nat2Z.id, with_bits_with_bits.
    rewrite insert_take_drop by (auto; lia). reflexivity.
  - unfold I. rewrite take_0, drop_0. cbn [app].
    rewrite <- Bd, with_bits_id. symmetry. apply insert_id. exact Hd.
  - change (Z.of_nat 0) with 0 in Hrun. rewrite Hrun. unfold I in Hfin.
    rewrite Hfin. cbn [Nat.add].
    rewrite take_ge, drop_ge, app_nil_r by lia. reflexivity.
Qed.

Lemma c_assert_eq (x y : Z) : x = y -> c_assert (x =? y) = Ret tt.
Proof. intros ->. rewrite Z.eqb_refl. reflexivity. Qed.

Lemma stored_bit_zip_with (op : Z -> Z -> Z) (f : bool -> bool -> bool)
    (aws bws : list Z) (i : Z) :
  (forall x y n, 0 <= n -> Z.testbit (op x y) n = f (Z.testbit x n) (Z.testbit y n)) ->
  f false false = false -> length bws = length aws -> 0 <= i ->
  stored_bit (zip_with op aws bws) i = f (stored_bit aws i) (stored_bit bws i).
Proof.
  intros Hop Hf Hlen Hi. unfold stored_bit. rewrite lookup_zip_with.
  pose proof (Z.mod_pos_bound i BITS_PER_ATOM ltac:(reflexivity)) as Hm.
  destruct (aws !! Z.to_nat (i / BITS_PER_ATOM)) as [x |] eqn:Hx; cbn.
  - destruct (lookup_lt_is_Some_2 bws (Z.to_nat (i / BITS_PER_ATOM))) as [y Hy].
    { apply lookup_lt_Some in Hx. lia. }
    rewrite Hy. cbn. apply Hop. lia.
  - apply lookup_ge_None in Hx.
    rewrite (proj2 (lookup_ge_None bws _)) by lia. symmetry. exact Hf.
Qed.

Lemma bitset_and_to_or_to_atoms_aux (st : gmap nat bitset_t) (dest a b : nat)
    (sd sa sb : bitset_t) (dws aws bws : list Z) :
  operand st dest sd dws -> operand st a sa aws -> operand st b sb bws ->
  natoms sa = natoms sb -> natoms sd = natoms sa ->
  bitset_and_to st dest a b
    = Ret (<[dest := with_bits sd (Block (zip_with Z.land aws bws))]> st) /\
  bitset_or_to st dest a b
    = Ret (<[dest := with_bits sd (Block (zip_with Z.lor aws bws))]> st).
Proof.
  intros (Hd & Bd & Ld) (Ha & Ba & La) (Hb & Bb & Lb) Hab Hda.
  unfold bitset_and_to, bitset_or_to, deref. rewrite Hd, Ha, Hb.
  cbn [mbind outcome_bind].
  rewrite (c_assert_eq _ _ Hab), (c_assert_eq _ _ Hda). cbn [mbind outcome_bind].
  split.
  - apply (atoms_zip_result Z.land st dest a b sd sa sb dws aws bws); auto; lia.
  - apply (atoms_zip_result Z.lor st dest a b sd sa sb dws aws bws); auto; lia.
Qed.

(** X11. For operands with live blocks of the same number of atoms,
    [bitset_and_to] and [bitset_or_to] return and change the store only by
    giving [dest] the atoms of [a] and [b] combined one by one, also when
    [dest] is [a] or [b]: each stored bit of the result is the conjunction,
    or the disjunction, of the stored bits of [a] and [b]. *)
Theorem bitset_and_to_or_to_atoms (st : gmap nat bitset_t) (dest a b : nat)
    (sd sa sb : bitset_t) (dws aws bws : list Z) :
  operand st dest sd dws -> operand st a sa aws -> operand st b sb bws ->
  natoms sa = natoms sb -> natoms sd = natoms sa ->
  bitset_and_to st dest a b
    = Ret (<[dest := with_bits sd (Block (zip_with Z.land aws bws))]> st) /\
  bitset_or_to st dest a b
    = Ret (<[dest := with_bits sd (Block (zip_with Z.lor aws bws))]> st) /\
  (forall i, 0 <= i ->
     stored_bit (zip_with Z.land aws bws) i = stored_bit aws i && stored_bit bws i /\
     stored_bit (zip_with Z.lor aws bws) i = stored_bit aws i || stored_bit bws i).
Proof.
  intros Od Oa Ob Hab Hda.
  destruct (bitset_and_to_or_to_atoms_aux st dest a b sd sa sb dws aws bws
              Od Oa Ob Hab Hda) as [Hand Hor].
  destruct Oa as (Ha & Ba & La). destruct Ob as (Hb & Bb & Lb).
  split; [exact Hand |]. split; [exact Hor |].
  intros i Hi. split.
  - apply stored_bit_zip_with; auto; [| lia]. intros x y n _. apply Z.land_spec.
  - apply stored_bit_zip_with; auto; [| lia]. intros x y n _. apply Z.lor_spec.
Qed.

Lemma bitset_and_to_or_to_atoms_witness :
  bitset_and_to (<[2%nat := mk_bitset 70 2 (Block [6; 1])]>
                   (<[1%nat := mk_bitset 70 2 (Block [3; 0])]> ∅)) 1 1 2
    = Ret (<[1%nat := mk_bitset 70 2 (Block [2; 0])]>
             (<[2%nat := mk_bitset 70 2 (Block [6; 1])]>
                (<[1%nat := mk_bitset 70 2 (Block [3; 0])]> ∅))) /\
  bitset_or_to (<[2%nat := mk_bitset 70 2 (Block [6; 1])]>
                  (<[1%nat := mk_bitset 70 2 (Block [3; 0])]> ∅)) 1 1 2
    = Ret (<[1%nat := mk_bitset 70 2 (Block [7; 1])]>
             (<[2%nat := mk_bitset 70 2 (Block [6; 1])]>
                (<[1%nat := mk_bitset 70 2 (Block [3; 0])]> ∅))).
Proof.
  pose proof (bitset_and_to_or_to_atoms
                (<[2%nat := mk_bitset 70 2 (Block [6; 1])]>
                   (<[1%nat := mk_bitset 70 2 (Block [3; 0])]> ∅))
                1%nat 1%nat 2%nat
                (mk_bitset 70 2 (Block [3; 0])) (mk_bitset 70 2 (Block [3; 0]))
                (mk_bitset 70 2 (Block [6; 1])) [3; 0] [3; 0] [6; 1]
                ltac:(repeat split; vm_compute; reflexivity)
                ltac:(repeat split; vm_compute; reflexivity)
                ltac:(repeat split; vm_compute; reflexivity)
                eq_refl eq_refl) as (Hand & Hor & _).
  split; [exact Hand | exact Hor].
Defined.

(** X12. [bitset_and] and [bitset_or] give [a] its own atoms combined one by
    one with those of [b], and change nothing else. *)
Theorem bitset_and_or_atoms (st : gmap nat bitset_t) (a b : nat)
    (sa sb : bitset_t) (aws bws : list Z) :
  operand st a sa aws -> operand st b sb bws -> natoms sa = natoms sb ->
  bitset_and st a b = Ret (<[a := with_bits sa (Block (zip_with Z.land aws bws))]> st) /\
  bitset_or st a b = Ret (<[a := with_bits sa (Block (zip_with Z.lor aws bws))]> st).
Proof.
  intros (Ha & Ba & La) (Hb & Bb & Lb) Hab.
  unfold bitset_and, bitset_or, deref. rewrite Ha, Hb.
  cbn [mbind outcome_bind]. rewrite (c_assert_eq _ _ Hab). cbn [mbind outcome_bind].
  split.
  - apply (atoms_zip_result Z.land st a a b sa sa sb aws aws bws); auto; lia.
  - apply (atoms_zip_result Z.lor st a a b sa sa sb aws aws bws); auto; lia.
Qed.

Lemma bitset_and_or_atoms_witness :
  bitset_and (<[2%nat := mk_bitset 70 2 (Block [6; 1])]>
                (<[1%nat := mk_bitset 70 2 (Block [3; 0])]> ∅)) 1 2
    = Ret (<[1%nat := mk_bitset 70 2 (Block [2; 0])]>
             (<[2%nat := mk_bitset 70 2 (Block [6; 1])]>
                (<[1%nat := mk_bitset 70 2 (Block [3; 0])]> ∅))) /\
  bitset_or (<[2%nat := mk_bitset 70 2 (Block [6; 1])]>
               (<[1%nat := mk_bitset 70 2 (Block [3; 0])]> ∅)) 1 2
    = Ret (<[1%nat := mk_bitset 70 2 (Block [7; 1])]>
             (<[2%nat := mk_bitset 70 2 (Block [6; 1])]>
                (<[1%nat := mk_bitset 70 2 (Block [3; 0])]> ∅))).
Proof.
  apply (bitset_and_or_atoms
           (<[2%nat := mk_bitset 70 2 (Block [6; 1])]>
              (<[1%nat := mk_bitset 70 2 (Block [3; 0])]> ∅))
           1%nat 2%nat
           (mk_bitset 70 2 (Block [3; 0])) (mk_bitset 70 2 (Block [6; 1]))
           [3; 0] [6; 1]);
    repeat split; vm_compute; reflexivity.
Defined.

Lemma zip_with_comm_Z (op : Z -> Z -> Z) (xs ys : list Z) :
  (forall x y, op x y = op y x) -> zip_with op xs ys = zip_with op ys xs.
Proof.
  intros Hop. revert ys. induction xs as [| x xs IH]; intros [| y ys]; cbn;
    try reflexivity.
  rewrite Hop, IH. reflexivity.
Qed.

Lemma zip_with_diag_Z (op : Z -> Z -> Z) (xs : list Z) :
  (forall x, op x x = x) -> zip_with op xs xs = xs.
Proof.
  intros Hop. induction xs as [| x xs IH]; cbn; [reflexivity |].
  rewrite Hop, IH. reflexivity.
Qed.

(** X13. [bitset_and_to] and [bitset_or_to] do not depend on the order of
    their two sources. *)
Theorem bitset_and_to_or_to_comm (st : gmap nat bitset_t) (dest a b : nat)
    (sd sa sb : bitset_t) (dws aws bws : list Z) :
  operand st dest sd dws -> operand st a sa aws -> operand st b sb bws ->
  natoms sa = natoms sb -> natoms sd = natoms sa ->
  bitset_and_to st dest a b = bitset_and_to st dest b a /\
  bitset_or_to st dest a b = bitset_or_to st dest b a.
Proof.
  intros (Hd & Bd & Ld) (Ha & Ba & La) (Hb & Bb & Lb) Hab Hda.
  unfold bitset_and_to, bitset_or_to, deref. rewrite Hd, Ha, Hb.
  cbn [mbind outcome_bind].
  rewrite (c_assert_eq _ _ Hab), (c_assert_eq _ _ Hda).
  rewrite (c_assert_eq (natoms sb) (natoms sa)), (c_assert_eq (natoms sd) (natoms sb))
    by congruence.
  cbn [mbind outcome_bind].
  rewrite (atoms_zip_result Z.land st dest a b sd sa sb dws aws bws),
    (atoms_zip_result Z.land st dest b a sd sb sa dws bws aws),
    (atoms_zip_result Z.lor st dest a b sd sa sb dws aws bws),
    (atoms_zip_result Z.lor st dest b a sd sb sa dws bws aws) by (auto; lia).
  rewrite (zip_with_comm_Z Z.land aws bws Z.land_comm),
    (zip_with_comm_Z Z.lor aws bws Z.lor_comm).
  split; reflexivity.
Qed.

Lemma bitset_and_to_or_to_comm_witness :
  bitset_and_to (<[2%nat := mk_bitset 70 2 (Block [6; 1])]>
                   (<[1%nat := mk_bitset 70 2 (Block [3; 0])]> ∅)) 1 1 2
  = bitset_and_to (<[2%nat := mk_bitset 70 2 (Block [6; 1])]>
                     (<[1%nat := mk_bitset 70 2 (Block [3; 0])]> ∅)) 1 2 1 /\
  bitset_or_to (<[2%nat := mk_bitset 70 2 (Block [6; 1])]>
                  (<[1%nat := mk_bitset 70 2 (Block [3; 0])]> ∅)) 1 1 2
  = bitset_or_to (<[2%nat := mk_bitset 70 2 (Block [6; 1])]>
                    (<[1%nat := mk_bitset 70 2 (Block [3; 0])]> ∅)) 1 2 1.
Proof.
  apply (bitset_and_to_or_to_comm
           (<[2%nat := mk_bitset 70 2 (Block [6; 1])]>
              (<[1%nat := mk_bitset 70 2 (Block [3; 0])]> ∅))
           1%nat 1%nat 2%nat
           (mk_bitset 70 2 (Block [3; 0])) (mk_bitset 70 2 (Block [3; 0]))
           (mk_bitset 70 2 (Block [6; 1])) [3; 0] [3; 0] [6; 1]);
    repeat split; vm_compute; reflexivity.
Defined.

Lemma bitset_copy_result (st : gmap nat bitset_t) (dest src : nat)
    (sd ss : bitset_t) (dws sws : list Z) :
  operand st dest sd dws -> operand st src ss sws -> natoms sd = natoms ss ->
  bitset_copy st dest src = Ret (<[dest := with_bits sd (Block sws)]> st).
Proof.
  intros (Hd & Bd & Ld) (Hs & Bs & Ls) Hn.
  unfold bitset_copy, deref. rewrite Hd, Hs. cbn [mbind outcome_bind].
  rewrite (c_assert_eq _ _ Hn). cbn [mbind outcome_bind].
  rewrite Bd, Bs. unfold memcpy_atoms.
  rewrite (proj2 (Z.leb_le 0 (natoms ss))) by lia.
  rewrite (proj2 (Z.leb_le (natoms ss) (Z.of_nat (length dws)))) by lia.
  rewrite (proj2 (Z.leb_le (natoms ss) (Z.of_nat (length sws)))) by lia.
  cbn [andb mbind outcome_bind].
  rewrite take_ge, drop_ge, app_nil_r by lia. reflexivity.
Qed.

(** X10. [bitset_copy] between operands with live blocks of the same number
    of atoms gives [dest] exactly the atoms of [src] and changes nothing
    else: [dest] keeps its own [nbits], and at every index below both
    capacities [bitset_get] answers on the copy what it answers on [src]. *)
Theorem bitset_copy_atoms (st : gmap nat bitset_t) (dest src : nat)
    (sd ss : bitset_t) (dws sws : list Z) :
  operand st dest sd dws -> operand st src ss sws -> natoms sd = natoms ss ->
  bitset_copy st dest src = Ret (<[dest := with_bits sd (Block sws)]> st) /\
  nbits (with_bits sd (Block sws)) = nbits sd /\
  (forall i, i < nbits sd -> i < nbits ss ->
     bitset_get (with_bits sd (Block sws)) i = bitset_get ss i).
Proof.
  intros Od Os Hn. split; [eapply bitset_copy_result; eassumption |].
  split; [reflexivity |].
  intros i Hid His. destruct Os as (_ & Bs & _).
  unfold bitset_get. cbn [nbits bits with_bits].
  rewrite (proj2 (Z.ltb_lt _ _) Hid), (proj2 (Z.ltb_lt _ _) His), Bs. reflexivity.
Qed.

Lemma bitset_copy_atoms_witness :
  bitset_copy (<[2%nat := mk_bitset 70 2 (Block [6; 1])]>
                 (<[1%nat := mk_bitset 65 2 (Block [3; 0])]> ∅)) 1 2
    = Ret (<[1%nat := mk_bitset 65 2 (Block [6; 1])]>
             (<[2%nat := mk_bitset 70 2 (Block [6; 1])]>
                (<[1%nat := mk_bitset 65 2 (Block [3; 0])]> ∅))).
Proof.
  apply (bitset_copy_atoms
           (<[2%nat := mk_bitset 70 2 (Block [6; 1])]>
              (<[1%nat := mk_bitset 65 2 (Block [3; 0])]> ∅))
           1%nat 2%nat
           (mk_bitset 65 2 (Block [3; 0])) (mk_bitset 70 2 (Block [6; 1]))
           [3; 0] [6; 1]);
    repeat split; vm_compute; reflexivity.
Defined.

(** X14. With the same bitset as both sources the set functions copy:
    [bitset_and] and [bitset_or] of a bitset with itself leave the store as
    it is, and [bitset_and_to] and [bitset_or_to] do what [bitset_copy]
    does. *)
Theorem bitset_and_or_same_operand (st : gmap nat bitset_t) (dest a : nat)
    (sd sa : bitset_t) (dws aws : list Z) :
  operand st dest sd dws -> operand st a sa aws -> natoms sd = natoms sa ->
  bitset_and st a a = Ret st /\
  bitset_or st a a = Ret st /\
  bitset_and_to st dest a a = bitset_copy st dest a /\
  bitset_or_to st dest a a = bitset_copy st dest a.
Proof.
  intros Od Oa Hda.
  pose proof (bitset_copy_result st dest a sd sa dws aws Od Oa Hda) as Hcopy.
  destruct Od as (Hd & Bd & Ld). destruct Oa as (Ha & Ba & La).
  unfold bitset_and, bitset_or, bitset_and_to, bitset_or_to, deref.
  rewrite Hd, Ha. cbn [mbind outcome_bind].
  rewrite (c_assert_eq _ _ (eq_refl (natoms sa))), (c_assert_eq _ _ Hda).
  cbn [mbind outcome_bind].
  rewrite (atoms_zip_result Z.land st a a a sa sa sa aws aws aws),
    (atoms_zip_result Z.lor st a a a sa sa sa aws aws aws),
    (atoms_zip_result Z.land st dest a a sd sa sa dws aws aws),
    (atoms_zip_result Z.lor st dest a a sd sa sa dws aws aws) by (auto; lia).
  rewrite (zip_with_diag_Z Z.land aws Z.land_diag),
    (zip_with_diag_Z Z.lor aws Z.lor_diag), Hcopy.
  rewrite <- Ba, with_bits_id, insert_id by exact Ha.
  repeat split.
Qed.

Lemma bitset_and_or_same_operand_witness :
  bitset_and (<[2%nat := mk_bitset 70 2 (Block [6; 1])]>
                (<[1%nat := mk_bitset 70 2 (Block [3; 0])]> ∅)) 2 2
    = Ret (<[2%nat := mk_bitset 70 2 (Block [6; 1])]>
             (<[1%nat := mk_bitset 70 2 (Block [3; 0])]> ∅)) /\
  bitset_or (<[2%nat := mk_bitset 70 2 (Block [6; 1])]>
               (<[1%nat := mk_bitset 70 2 (Block [3; 0])]> ∅)) 2 2
    = Ret (<[2%nat := mk_bitset 70 2 (Block [6; 1])]>
             (<[1%nat := mk_bitset 70 2 (Block [3; 0])]> ∅)) /\
  bitset_and_to (<[2%nat := mk_bitset 70 2 (Block [6; 1])]>
                   (<[1%nat := mk_bitset 70 2 (Block [3; 0])]> ∅)) 1 2 2
    = bitset_copy (<[2%nat := mk_bitset 70 2 (Block [6; 1])]>
                     (<[1%nat := mk_bitset 70 2 (Block [3; 0])]> ∅)) 1 2 /\
  bitset_or_to (<[2%nat := mk_bitset 70 2 (Block [6; 1])]>
                  (<[1%nat := mk_bitset 70 2 (Block [3; 0])]> ∅)) 1 2 2
    = bitset_copy (<[2%nat := mk_bitset 70 2 (Block [6; 1])]>
                     (<[1%nat := mk_bitset 70 2 (Block [3; 0])]> ∅)) 1 2.
Proof.
  apply (bitset_and_or_same_operand
           (<[2%nat := mk_bitset 70 2 (Block [6; 1])]>
              (<[1%nat := mk_bitset 70 2 (Block [3; 0])]> ∅))
           1%nat 2%nat
           (mk_bitset 70 2 (Block [3; 0])) (mk_bitset 70 2 (Block [6; 1]))
           [3; 0] [6; 1]);
    repeat split; vm_compute; reflexivity.
Defined.

(** X15. When the [natoms] of two operands differ, [bitset_copy] and the
    four set functions stop at an assertion, before any atom is read or
    written. *)
Theorem natoms_mismatch_asserts (st : gmap nat bitset_t) (dest a b : nat)
    (sd sa sb : bitset_t) :
  st !! dest = Some sd -> st !! a = Some sa -> st !! b = Some sb ->
  (natoms sa <> natoms sb ->
     bitset_and_to st dest a b = AssertFail /\ bitset_or_to st dest a b = AssertFail /\
     bitset_and st a b = AssertFail /\ bitset_or st a b = AssertFail) /\
  (natoms sd <> natoms sa ->
     bitset_and_to st dest a b = AssertFail /\ bitset_or_to st dest a b = AssertFail /\
     bitset_copy st dest a = AssertFail).
Proof.
  intros Hd Ha Hb.
  unfold bitset_and_to, bitset_or_to, bitset_and, bitset_or, bitset_copy, deref.
  rewrite Hd, Ha, Hb. cbn [mbind outcome_bind].
  split; intros Hne.
  - rewrite (proj2 (Z.eqb_neq _ _) Hne). repeat split.
  - rewrite (proj2 (Z.eqb_neq _ _) Hne).
    destruct (natoms sa =? natoms sb); repeat split.
Qed.

Lemma natoms_mismatch_asserts_witness :
  bitset_and (<[2%nat := mk_bitset 70 2 (Block [6; 1])]>
                (<[1%nat := mk_bitset 10 1 (Block [3])]> ∅)) 1 2 = AssertFail /\
  bitset_copy (<[2%nat := mk_bitset 70 2 (Block [6; 1])]>
                 (<[1%nat := mk_bitset 10 1 (Block [3])]> ∅)) 1 2 = AssertFail.
Proof.
  assert (L1 : (<[2%nat := mk_bitset 70 2 (Block [6; 1])]>
                  (<[1%nat := mk_bitset 10 1 (Block [3])]> ∅) : gmap nat bitset_t)
               !! 1%nat = Some (mk_bitset 10 1 (Block [3])))
    by (vm_compute; reflexivity).
  assert (L2 : (<[2%nat := mk_bitset 70 2 (Block [6; 1])]>
                  (<[1%nat := mk_bitset 10 1 (Block [3])]> ∅) : gmap nat bitset_t)
               !! 2%nat = Some (mk_bitset 70 2 (Block [6; 1])))
    by (vm_compute; reflexivity).
  destruct (natoms_mismatch_asserts _ 1%nat 1%nat 2%nat _ _ _ L1 L1 L2) as [H1 _].
  destruct (natoms_mismatch_asserts _ 1%nat 2%nat 2%nat _ _ _ L1 L2 L2) as [_ H2].
  destruct (H1 ltac:(cbn; lia)) as (_ & _ & Hand & _).
  destruct (H2 ltac:(cbn; lia)) as (_ & _ & Hcopy).
  split; [exact Hand | exact Hcopy].
Defined.

(** ** What the scans find *)

Lemma pos_ctz_spec (p : positive) :
  0 <= pos_ctz p /\
  Z.testbit (Z.pos p) (pos_ctz p) = true /\
  (forall j, 0 <= j < pos_ctz p -> Z.testbit (Z.pos p) j = false).
Proof.
  induction p as [p IH | p IH |]; cbn [pos_ctz].
  - split; [lia |]. split; [reflexivity | intros j Hj; lia].
  - destruct IH as (H0 & Ht & Hl).
    change (Z.pos p~0) with (2 * Z.pos p).
    split; [lia |]. split.
    + replace (1 + pos_ctz p) with (Z.succ (pos_ctz p)) by lia.
      rewrite Z.double_bits_succ. exact Ht.
    + intros j Hj. destruct (Z.eq_dec j 0) as [-> | Hne].
      * apply Z.testbit_even_0.
      * replace j with (Z.succ (j - 1)) by lia.
        rewrite Z.double_bits_succ. apply Hl. lia.
  - split; [lia |]. split; [reflexivity | intros j Hj; lia].
Qed.

Lemma bitset_atom_ctz_spec (w : Z) :
  0 <= w <= BITSET_ATOM_MAX -> w <> 0 ->
  exists c, bitset_atom_ctz w = Ret c /\ 0 <= c < 64 /\
            Z.testbit w c = true /\
            (forall j, 0 <= j < c -> Z.testbit w j = false).
Proof.
  intros Hw Hne. destruct w as [| p | p]; try lia.
  destruct (pos_ctz_spec p) as (H0 & Ht & Hl).
  exists (pos_ctz p). split; [reflexivity |]. split; [| split; assumption].
  split; [exact H0 |].
  destruct (Z.lt_ge_cases (pos_ctz p) 64) as [Hlt | Hge]; [exact Hlt |].
  rewrite (atom_high_bits (Z.pos p) (pos_ctz p) Hw Hge) in Ht. discriminate.
Qed.

Lemma Exists_nonzero_split (ws : list Z) :
  Exists (fun w => w <> 0) ws ->
  exists k w tl, ws = replicate k 0 ++ w :: tl /\ w <> 0.
Proof.
  induction ws as [| x ws IH]; intros H; [inversion H |].
  destruct (Z.eq_dec x 0) as [-> | Hx].
  - apply Exists_cons in H as [H | H]; [congruence |].
    destruct (IH H) as (k & w & tl & -> & Hw).
    exists (Datatypes.S k), w, tl. split; [reflexivity | exact Hw].
  - exists 0%nat, x, ws. split; [reflexivity | exact Hx].
Qed.

Lemma Forall_zero_replicate (ws : list Z) :
  Forall (fun w => w = 0) ws -> ws = replicate (length ws) 0.
Proof.
  induction 1 as [| x ws -> _ IH]; [reflexivity |].
  cbn. f_equal. exact IH.
Qed.

Lemma to_int_to_u64 (k : Z) : 0 <= k < 2 ^ 64 -> to_int (to_u64 k) = to_int k.
Proof. intros Hk. unfold to_u64. rewrite Z.mod_small by lia. reflexivity. Qed.

(** The scan from atom [s] on, when the atoms from [s] are [k] zero atoms
    followed by a non-zero atom [w]: it answers the position of the lowest
    bit of [w], and no stored bit from atom [s] up to that position is 1. *)
Lemma first_set_from_lowest (bs : bitset_t) (ws tl : list Z) (s k : nat) (w : Z) :
  bits bs = Block ws -> Z.of_nat (length ws) = natoms bs ->
  natoms bs <= 2 ^ 58 ->
  drop s ws = replicate k 0 ++ w :: tl ->
  0 <= w <= BITSET_ATOM_MAX -> w <> 0 ->
  exists r,
    first_set_from bs (Z.of_nat s) = Ret (to_int r) /\
    BITS_PER_ATOM * Z.of_nat s <= r < BITS_PER_ATOM * natoms bs /\
    stored_bit ws r = true /\
    (forall i, BITS_PER_ATOM * Z.of_nat s <= i < r -> stored_bit ws i = false).
Proof.
  intros Hb Hlen Hbig Hdrop Hw Hne.
  destruct (bitset_atom_ctz_spec w Hw Hne) as (c & Hc & Hc64 & Hct & Hcl).
  assert (Hlk : length (drop s ws) = (k + Datatypes.S (length tl))%nat).
  { rewrite Hdrop, length_app, length_replicate. reflexivity. }
  rewrite length_drop in Hlk.
  assert (Hwk : ws !! (s + k)%nat = Some w).
  { rewrite <- lookup_drop, Hdrop.
    rewrite lookup_app_r by (rewrite length_replicate; lia).
    rewrite length_replicate, Nat.sub_diag. reflexivity. }
  assert (Hzero : forall q, (s <= q < s + k)%nat -> ws !! q = Some 0).
  { intros q Hq. replace q with (s + (q - s))%nat by lia.
    rewrite <- lookup_drop, Hdrop.
    rewrite lookup_app_l by (rewrite length_replicate; lia).
    apply lookup_replicate_2. lia. }
  exists (Z.of_nat (s + k) * BITS_PER_ATOM + c).
  unfold BITS_PER_ATOM in *. change (8 * 8) with 64 in *.
  split; [| split; [lia |]; split].
  - unfold first_set_from, skip_zero_from. rewrite Hb.
    rewrite (proj2 (Z.leb_le 0 (Z.of_nat s))) by lia.
    rewrite Nat2Z.id, Hdrop.
    rewrite skip_zero_atoms_stops by (auto; lia).
    cbn [mbind outcome_bind].
    rewrite (proj2 (Z.eqb_neq _ _)) by lia.
    rewrite (load_Some ws _ w) by (try lia; rewrite <- Nat2Z.inj_add, Nat2Z.id; exact Hwk).
    cbn [mbind outcome_bind]. rewrite Hc. cbn [mbind outcome_bind].
    rewrite <- Nat2Z.inj_add. unfold BITS_PER_ATOM. change (8 * 8) with 64.
    rewrite to_int_to_u64 by lia. reflexivity.
  - unfold stored_bit, BITS_PER_ATOM. change (8 * 8) with 64.
    rewrite Z.add_comm, Z.div_add, Z.mod_add by lia.
    rewrite Z.div_small, Z.mod_small by lia.
    rewrite Z.add_0_l, Nat2Z.id, Hwk. exact Hct.
  - intros i Hi. unfold stored_bit, BITS_PER_ATOM. change (8 * 8) with 64.
    pose proof (Z.div_mod i 64 ltac:(lia)) as Hdm.
    pose proof (Z.mod_pos_bound i 64 ltac:(lia)) as Hmb.
    assert (Hq : Z.of_nat s <= i / 64 <= Z.of_nat (s + k)) by lia.
    destruct (Z.eq_dec (i / 64) (Z.of_nat (s + k))) as [Heq | Hneq].
    + rewrite Heq, Nat2Z.id, Hwk. apply Hcl. lia.
    + rewrite (Hzero (Z.to_nat (i / 64))) by lia. apply Z.bits_0.
Qed.

Lemma initialized_natoms_bound (bs : bitset_t) :
  initialized bs -> 0 <= natoms bs <= 2 ^ 58.
Proof.
  intros (Hn & Hnat & _). rewrite Hnat, BITS_TO_NATOMS_ceil.
  pose proof (ceil_div_bounds (nbits bs) BITS_PER_ATOM ltac:(reflexivity)) as Hb.
  unfold BITS_PER_ATOM, SIZE_MAX in *. lia.
Qed.

(** X16. On an initialized bitset with a non-zero atom [bitset_first_set]
    answers the position of the lowest stored bit that is 1, converted to
    [int]: the position itself when it is at most [INT_MAX].  The position
    is below [64 * natoms]; it is not compared with [nbits]. *)
Theorem bitset_first_set_lowest (bs : bitset_t) (ws : list Z) :
  initialized bs -> bits bs = Block ws -> Exists (fun w => w <> 0) ws ->
  exists k,
    0 <= k < BITS_PER_ATOM * natoms bs /\
    stored_bit ws k = true /\
    (forall i, 0 <= i < k -> stored_bit ws i = false) /\
    bitset_first_set bs = Ret (to_int k) /\
    (k <= INT_MAX -> bitset_first_set bs = Ret k).
Proof.
  intros Hinit Hb Hex.
  pose proof (initialized_natoms_bound bs Hinit) as Hbound.
  destruct Hinit as (_ & _ & ws' & Hb' & Hlen & Hall).
  rewrite Hb in Hb'. injection Hb' as <-.
  destruct (Exists_nonzero_split ws Hex) as (k & w & tl & Hws & Hw).
  assert (Hwr : 0 <= w <= BITSET_ATOM_MAX).
  { rewrite Hws in Hall. apply Forall_app in Hall as [_ Hall].
    apply Forall_cons in Hall as [Hwr _]. exact Hwr. }
  destruct (first_set_from_lowest bs ws tl 0 k w Hb Hlen ltac:(lia)
              ltac:(rewrite drop_0; exact Hws) Hwr Hw) as (r & Hr & Hrange & Hset & Hlow).
  change (Z.of_nat 0) with 0 in *. rewrite Z.mul_0_r in *.
  exists r. unfold bitset_first_set.
  split; [lia |]. split; [exact Hset |]. split; [exact Hlow |].
  split; [exact Hr |].
  intros Hmax. rewrite Hr. f_equal.
  rewrite <- (to_int_to_u64 r) by (unfold BITS_PER_ATOM in Hrange; lia).
  apply to_int_small. lia.
Qed.

Lemma bitset_first_set_lowest_witness :
  exists k,
    0 <= k < BITS_PER_ATOM * 2 /\
    stored_bit [0; 12] k = true /\
    (forall i, 0 <= i < k -> stored_bit [0; 12] i = false) /\
    bitset_first_set (mk_bitset 70 2 (Block [0; 12])) = Ret (to_int k) /\
    (k <= INT_MAX -> bitset_first_set (mk_bitset 70 2 (Block [0; 12])) = Ret k).
Proof.
  apply (bitset_first_set_lowest (mk_bitset 70 2 (Block [0; 12])) [0; 12]).
  - split; [cbn; unfold SIZE_MAX; lia |]. split; [reflexivity |].
    exists [0; 12]. split; [reflexivity |]. split; [reflexivity |].
    repeat constructor; unfold BITSET_ATOM_MAX; lia.
  - reflexivity.
  - apply Exists_cons_tl, Exists_cons_hd. lia.
Defined.

(** X17. On an initialized bitset [bitset_first_set] has undefined behaviour,
    the read of [bs->bits[natoms]] past the end of the block, exactly when
    every atom is zero. *)
Theorem bitset_first_set_undefined_iff (bs : bitset_t) (ws : list Z) :
  initialized bs -> bits bs = Block ws ->
  (bitset_first_set bs = Undefined <-> Forall (fun w => w = 0) ws).
Proof.
  intros Hinit Hb.
  pose proof (initialized_natoms_bound bs Hinit) as Hbound.
  pose proof Hinit as (_ & _ & ws' & Hb' & Hlen & Hall).
  rewrite Hb in Hb'. injection Hb' as <-.
  split.
  - intros Hund.
    destruct (decide (Forall (fun w => w = 0) ws)) as [Hz | Hnz]; [exact Hz |].
    apply not_Forall_Exists in Hnz; [| tc_solve].
    destruct (Exists_nonzero_split ws Hnz) as (k & w & tl & Hws & Hw).
    assert (Hwr : 0 <= w <= BITSET_ATOM_MAX).
    { rewrite Hws in Hall. apply Forall_app in Hall as [_ Hall].
      apply Forall_cons in Hall as [Hwr _]. exact Hwr. }
    destruct (first_set_from_lowest bs ws tl 0 k w Hb Hlen ltac:(lia)
                ltac:(rewrite drop_0; exact Hws) Hwr Hw) as (r & Hr & _).
    unfold bitset_first_set in Hund. change (Z.of_nat 0) with 0 in Hr.
    rewrite Hr in Hund. discriminate.
  - intros Hz. apply (bitset_first_set_all_zero bs (length ws)); [| lia].
    rewrite Hb. f_equal. apply Forall_zero_replicate. exact Hz.
Qed.

Lemma bitset_first_set_undefined_iff_witness :
  bitset_first_set (snd (bitset_init true 100)) = Undefined
  <-> Forall (fun w => w = 0) [0; 0].
Proof.
  apply (bitset_first_set_undefined_iff (snd (bitset_init true 100)) [0; 0]).
  - apply initialized_init. unfold SIZE_MAX. lia.
  - reflexivity.
Defined.

Lemma shl_u64_max_0 : shl_u64 BITSET_ATOM_MAX 0 = Ret BITSET_ATOM_MAX.
Proof. reflexivity. Qed.

(** X18. When the atom that holds [from] is zero and a later atom is not,
    [bitset_next_set] on an initialized bitset answers the position of the
    lowest stored bit at or after [from] that is 1, converted to [int]:
    the position itself when it is at most [INT_MAX]. *)
Theorem bitset_next_set_later_atom (bs : bitset_t) (ws : list Z) (from : Z) :
  initialized bs -> bits bs = Block ws -> 0 <= from ->
  Z.land from BITS_PER_ATOM = 0 ->
  ws !! Z.to_nat (from / BITS_PER_ATOM) = Some 0 ->
  Exists (fun w => w <> 0) (drop (Datatypes.S (Z.to_nat (from / BITS_PER_ATOM))) ws) ->
  exists k,
    from <= k < BITS_PER_ATOM * natoms bs /\
    stored_bit ws k = true /\
    (forall i, from <= i < k -> stored_bit ws i = false) /\
    bitset_next_set bs from = Ret (to_int k) /\
    (k <= INT_MAX -> bitset_next_set bs from = Ret k).
Proof.
  intros Hinit Hb Hfrom Hland Hzero Hex.
  pose proof (initialized_natoms_bound bs Hinit) as Hbound.
  destruct Hinit as (_ & _ & ws' & Hb' & Hlen & Hall).
  rewrite Hb in Hb'. injection Hb' as <-.
  pose proof (atom_index_nonneg from Hfrom) as Ha.
  set (a := Z.to_nat (from / BITS_PER_ATOM)) in *.
  destruct (Exists_nonzero_split _ Hex) as (k & w & tl & Hws & Hw).
  assert (Hwr : 0 <= w <= BITSET_ATOM_MAX).
  { apply (Forall_drop _ (Datatypes.S a)) in Hall. rewrite Hws in Hall.
    apply Forall_app in Hall as [_ Hall].
    apply Forall_cons in Hall as [Hwr _]. exact Hwr. }
  destruct (first_set_from_lowest bs ws tl (Datatypes.S a) k w Hb Hlen ltac:(lia)
              Hws Hwr Hw) as (r & Hr & Hrange & Hset & Hlow).
  assert (Hnext : bitset_next_set bs from = Ret (to_int r)).
  { unfold bitset_next_set. rewrite Hland, shl_u64_max_0, Hb.
    cbn [mbind outcome_bind].
    rewrite (load_Some ws _ 0 Ha Hzero). cbn [mbind outcome_bind].
    rewrite Z.land_0_l. cbn [Z.eqb negb].
    replace (from / BITS_PER_ATOM + 1) with (Z.of_nat (Datatypes.S a)) by lia.
    exact Hr. }
  pose proof (Z.div_mod from BITS_PER_ATOM ltac:(unfold BITS_PER_ATOM; lia)) as Hdm.
  pose proof (Z.mod_pos_bound from BITS_PER_ATOM ltac:(reflexivity)) as Hmb.
  assert (Haz : Z.of_nat a = from / BITS_PER_ATOM) by (unfold a; lia).
  unfold BITS_PER_ATOM in Hrange, Hlow, Hdm, Hmb, Haz |- *.
  change (8 * 8) with 64 in Hrange, Hlow, Hdm, Hmb, Haz |- *.
  exists r. split; [lia |]. split; [exact Hset |]. split; [| split; [exact Hnext |]].
  - intros i Hi.
    destruct (Z.lt_ge_cases i (64 * Z.of_nat (Datatypes.S a))) as [Hlt | Hge].
    + unfold stored_bit, BITS_PER_ATOM. change (8 * 8) with 64.
      replace (i / 64) with (from / 64).
      * change 64 with BITS_PER_ATOM. fold a. rewrite Hzero. apply Z.bits_0.
      * apply Z.div_unique with (r := i - 64 * (from / 64)); lia.
    + apply Hlow. lia.
  - intros Hmax. rewrite Hnext. f_equal.
    rewrite <- (to_int_to_u64 r) by lia. apply to_int_small. lia.
Qed.

Lemma bitset_next_set_later_atom_witness :
  exists k,
    5 <= k < BITS_PER_ATOM * 2 /\
    stored_bit [0; 12] k = true /\
    (forall i, 5 <= i < k -> stored_bit [0; 12] i = false) /\
    bitset_next_set (mk_bitset 70 2 (Block [0; 12])) 5 = Ret (to_int k) /\
    (k <= INT_MAX -> bitset_next_set (mk_bitset 70 2 (Block [0; 12])) 5 = Ret k).
Proof.
  apply (bitset_next_set_later_atom (mk_bitset 70 2 (Block [0; 12])) [0; 12] 5).
  - split; [cbn; unfold SIZE_MAX; lia |]. split; [reflexivity |].
    exists [0; 12]. split; [reflexivity |]. split; [reflexivity |].
    repeat constructor; unfold BITSET_ATOM_MAX; lia.
  - reflexivity.
  - lia.
  - reflexivity.
  - reflexivity.
  - apply Exists_cons_hd. lia.
Defined.

(** X19. When the atom that holds [from] is not zero, [bitset_next_set] on
    an initialized bitset does not look at which of its bits are 1: for
    [from] below 64 it is undefined, as it counts the trailing zeros of the
    atom index 0, and otherwise it answers the atom index times 64 plus the
    trailing zeros of the atom index. *)
Theorem bitset_next_set_nonzero_atom (bs : bitset_t) (ws : list Z) (from w : Z) :
  initialized bs -> bits bs = Block ws -> 0 <= from ->
  Z.land from BITS_PER_ATOM = 0 ->
  ws !! Z.to_nat (from / BITS_PER_ATOM) = Some w -> w <> 0 ->
  (from < BITS_PER_ATOM -> bitset_next_set bs from = Undefined) /\
  (BITS_PER_ATOM <= from ->
     exists c, bitset_atom_ctz (from / BITS_PER_ATOM) = Ret c /\ 0 <= c /\
       bitset_next_set bs from
       = Ret (to_int (from / BITS_PER_ATOM * BITS_PER_ATOM + c))).
Proof.
  intros Hinit Hb Hfrom Hland Hw Hne.
  pose proof (initialized_natoms_bound bs Hinit) as Hbound.
  destruct Hinit as (_ & _ & ws' & Hb' & Hlen & Hall).
  rewrite Hb in Hb'. injection Hb' as <-.
  pose proof (atom_index_nonneg from Hfrom) as Ha.
  assert (Hwr : 0 <= w <= BITSET_ATOM_MAX).
  { rewrite Forall_lookup in Hall. exact (Hall _ _ Hw). }
  assert (Hload : load (bits bs) (from / BITS_PER_ATOM) = Ret w).
  { rewrite Hb. apply load_Some; assumption. }
  rewrite (bitset_next_set_first_atom bs from w Hland Hload Hne Hwr).
  pose proof (lookup_lt_Some _ _ _ Hw) as Hlt.
  split.
  - intros Hsmall. rewrite Z.div_small by lia. reflexivity.
  - intros Hbig.
    assert (Hpos : 0 < from / BITS_PER_ATOM).
    { apply Z.div_str_pos. unfold BITS_PER_ATOM in *. lia. }
    assert (Hsz : from / BITS_PER_ATOM < 2 ^ 58) by lia.
    revert Hpos Hsz.
    destruct (from / BITS_PER_ATOM) as [| p | p]; intros Hpos Hsz; try lia.
    destruct (pos_ctz_spec p) as (H0 & Ht & _).
    exists (pos_ctz p). split; [reflexivity |]. split; [exact H0 |].
    cbn [bitset_atom_ctz mbind outcome_bind]. f_equal.
    apply to_int_to_u64.
    assert (Hc : pos_ctz p <= Z.log2 (Z.pos p)).
    { destruct (Z.le_gt_cases (pos_ctz p) (Z.log2 (Z.pos p))) as [Hle | Hgt];
        [exact Hle |].
      rewrite Z.bits_above_log2 in Ht by lia. discriminate. }
    assert (Hl : Z.log2 (Z.pos p) < 58) by (apply Z.log2_lt_pow2; lia).
    unfold BITS_PER_ATOM. lia.
Qed.

Lemma bitset_next_set_nonzero_atom_witness :
  bitset_next_set (mk_bitset 10 1 (Block [136])) 3 = Undefined.
Proof.
  destruct (bitset_next_set_nonzero_atom (mk_bitset 10 1 (Block [136])) [136] 3 136)
    as [Hsmall _].
  - split; [cbn; unfold SIZE_MAX; lia |]. split; [reflexivity |].
    exists [136]. split; [reflexivity |]. split; [reflexivity |].
    repeat constructor; unfold BITSET_ATOM_MAX; lia.
  - reflexivity.
  - lia.
  - reflexivity.
  - reflexivity.
  - lia.
  - apply Hsmall. unfold BITS_PER_ATOM. lia.
Defined.

(** X20. When no atom from the one that holds [from] on is non-zero, and so
    also when [from] lies past the storage, [bitset_next_set] has undefined
    behaviour: a shift by 64 bits or a read past the end of the block. *)
Theorem bitset_next_set_nothing_left (bs : bitset_t) (ws : list Z) (from : Z) :
  bits bs = Block ws -> Z.of_nat (length ws) <= natoms bs -> 0 <= from ->
  Forall (fun w => w = 0) (drop (Z.to_nat (from / BITS_PER_ATOM)) ws) ->
  bitset_next_set bs from = Undefined.
Proof.
  intros Hb Hlen Hfrom Hz.
  pose proof (atom_index_nonneg from Hfrom) as Ha.
  unfold bitset_next_set. rewrite land_64_testbit.
  destruct (Z.testbit from 6); [reflexivity |].
  rewrite shl_u64_max_0, Hb. cbn [mbind outcome_bind]. unfold load.
  rewrite (proj2 (Z.leb_le 0 _) Ha).
  destruct (ws !! Z.to_nat (from / BITS_PER_ATOM)) as [w |] eqn:Hw; [| reflexivity].
  pose proof (lookup_lt_Some _ _ _ Hw) as Hlt.
  rewrite (drop_S ws w _ Hw) in Hz. apply Forall_cons in Hz as [-> Hz].
  cbn [mbind outcome_bind]. rewrite Z.land_0_l. cbn [Z.eqb negb].
  unfold first_set_from, skip_zero_from.
  rewrite (proj2 (Z.leb_le 0 _)) by lia.
  replace (Z.to_nat (from / BITS_PER_ATOM + 1))
    with (Datatypes.S (Z.to_nat (from / BITS_PER_ATOM))) by lia.
  rewrite Hb, (Forall_zero_replicate _ Hz), length_drop.
  rewrite skip_zero_atoms_zeros by lia. reflexivity.
Qed.

Lemma bitset_next_set_nothing_left_witness :
  bitset_next_set (mk_bitset 192 3 (Block [5; 0; 0])) 130 = Undefined.
Proof.
  apply (bitset_next_set_nothing_left (mk_bitset 192 3 (Block [5; 0; 0])) [5; 0; 0] 130).
  - reflexivity.
  - cbn. lia.
  - lia.
  - vm_compute. repeat constructor.
Defined.

(** ** Counting, again *)

Lemma atom_range_of_bits (w : Z) :
  0 <= w -> (forall n, 64 <= n -> Z.testbit w n = false) ->
  0 <= w <= BITSET_ATOM_MAX.
Proof.
  intros Hw Hhigh. split; [exact Hw |].
  assert (Heq : w = w mod 2 ^ 64).
  { apply Z.bits_inj'. intros n Hn.
    destruct (Z.lt_ge_cases n 64) as [Hlt | Hge].
    - rewrite Z.mod_pow2_bits_low by lia. reflexivity.
    - rewrite Z.mod_pow2_bits_high by lia. apply Hhigh. exact Hge. }
  pose proof (Z.mod_pos_bound w (2 ^ 64) ltac:(lia)).
  unfold BITSET_ATOM_MAX. lia.
Qed.

Lemma zip_with_range (op : Z -> Z -> Z) (f : bool -> bool -> bool) (xs ys : list Z) :
  (forall x y n, 0 <= n -> Z.testbit (op x y) n = f (Z.testbit x n) (Z.testbit y n)) ->
  (forall x y, 0 <= x -> 0 <= y -> 0 <= op x y) -> f false false = false ->
  Forall (fun w => 0 <= w <= BITSET_ATOM_MAX) xs ->
  Forall (fun w => 0 <= w <= BITSET_ATOM_MAX) ys ->
  Forall (fun w => 0 <= w <= BITSET_ATOM_MAX) (zip_with op xs ys).
Proof.
  intros Hop Hpos Hf Hx. revert ys.
  induction Hx as [| x xs Hx Hxs IH]; intros ys Hy; [constructor |].
  destruct Hy as [| y ys Hy Hys]; [constructor |].
  cbn. constructor; [| apply IH; exact Hys].
  apply atom_range_of_bits; [apply Hpos; lia |].
  intros n Hn. rewrite Hop by lia.
  rewrite (atom_high_bits x n Hx Hn), (atom_high_bits y n Hy Hn). exact Hf.
Qed.

Lemma count_indices_and_or (P Q : Z -> bool) (s : Z) (n : nat) :
  count_indices (fun i => P i && Q i) s n + count_indices (fun i => P i || Q i) s n
  = count_indices P s n + count_indices Q s n.
Proof.
  revert s. induction n as [| n IH]; intros s; [reflexivity |].
  cbn [count_indices]. specialize (IH (s + 1)).
  destruct (P s), (Q s); cbn [andb orb Z.b2z]; lia.
Qed.

Lemma count_indices_le (P Q : Z -> bool) (s : Z) (n : nat) :
  (forall i, P i = true -> Q i = true) ->
  count_indices P s n <= count_indices Q s n.
Proof.
  intros H. revert s. induction n as [| n IH]; intros s; [reflexivity |].
  cbn [count_indices]. specialize (IH (s + 1)). specialize (H s).
  destruct (P s), (Q s); cbn [Z.b2z]; try lia; discriminate (H eq_refl).
Qed.

Lemma sum_popcnt_bounds (ws : list Z) :
  Forall (fun w => 0 <= w <= BITSET_ATOM_MAX) ws ->
  0 <= sum_popcnt ws <= 64 * Z.of_nat (length ws).
Proof.
  intros Hall. rewrite (sum_popcnt_count ws Hall).
  pose proof (count_indices_bounds (stored_bit ws) 0 (64 * length ws)). lia.
Qed.

(** [bitset_popcnt] adds up the atoms of the block. *)
Lemma bitset_popcnt_sum (bs : bitset_t) (ws : list Z) :
  bits bs = Block ws -> Z.of_nat (length ws) = natoms bs ->
  bitset_popcnt bs = Ret (to_u64 (sum_popcnt ws)).
Proof.
  intros Hb Hlen. unfold bitset_popcnt. rewrite Hb.
  change 0 with (to_u64 0) at 2.
  rewrite popcnt_loop_sum by (change (Z.to_nat 0) with 0%nat; lia).
  change (Z.to_nat 0) with 0%nat. rewrite drop_0, take_ge by lia.
  rewrite Z.add_0_l. reflexivity.
Qed.

Lemma bitset_popcnt_sum_small (bs : bitset_t) (ws : list Z) :
  bits bs = Block ws -> Z.of_nat (length ws) = natoms bs ->
  natoms bs < 2 ^ 58 -> Forall (fun w => 0 <= w <= BITSET_ATOM_MAX) ws ->
  bitset_popcnt bs = Ret (sum_popcnt ws).
Proof.
  intros Hb Hlen Hsmall Hall. rewrite (bitset_popcnt_sum bs ws Hb Hlen).
  pose proof (sum_popcnt_bounds ws Hall).
  unfold to_u64. rewrite Z.mod_small by lia. reflexivity.
Qed.

(** X21. [bitset_popcnt] of an initialized bitset of fewer than 2^58 atoms
    is the number of stored bits that are 1 among all the [64 * natoms]
    positions of the block, those of the padding tail included; it is the
    number of such bits below [nbits] when the padding tail is zero. *)
Theorem bitset_popcnt_counts_storage (bs : bitset_t) (ws : list Z) :
  initialized bs -> bits bs = Block ws -> natoms bs < 2 ^ 58 ->
  bitset_popcnt bs = Ret (count_stored_ones ws (BITS_PER_ATOM * natoms bs)) /\
  ((forall i, nbits bs <= i < BITS_PER_ATOM * natoms bs -> stored_bit ws i = false) ->
   bitset_popcnt bs = Ret (count_stored_ones ws (nbits bs))).
Proof.
  intros Hinit Hb Hsmall. split.
  - destruct Hinit as (_ & _ & ws' & Hb' & Hlen & Hall).
    rewrite Hb in Hb'. injection Hb' as <-.
    rewrite (bitset_popcnt_sum_small bs ws Hb Hlen Hsmall Hall).
    rewrite (sum_popcnt_count ws Hall). unfold count_stored_ones. do 2 f_equal.
    unfold BITS_PER_ATOM. lia.
  - intros Hpad. apply bitset_popcnt_stored; assumption.
Qed.

Lemma bitset_popcnt_counts_storage_witness :
  bitset_popcnt (mk_bitset 3 1 (Block [13])) = Ret 3 /\
  count_stored_ones [13] (BITS_PER_ATOM * 1) = 3 /\
  count_stored_ones [13] 3 = 2.
Proof.
  destruct (bitset_popcnt_counts_storage (mk_bitset 3 1 (Block [13])) [13])
    as [Hall _].
  - split; [cbn; unfold SIZE_MAX; lia |]. split; [reflexivity |].
    exists [13]. split; [reflexivity |]. split; [reflexivity |].
    repeat constructor; unfold BITSET_ATOM_MAX; lia.
  - reflexivity.
  - cbn. lia.
  - split; [exact Hall |]. split; reflexivity.
Defined.

Lemma sum_popcnt_cons (x : Z) (ws : list Z) :
  sum_popcnt (x :: ws) = bitset_atom_popcnt x + sum_popcnt ws.
Proof. reflexivity. Qed.

Lemma sum_popcnt_insert (ws : list Z) (k : nat) (w v : Z) :
  ws !! k = Some w ->
  sum_popcnt (<[k := v]> ws) = sum_popcnt ws - bitset_atom_popcnt w + bitset_atom_popcnt v.
Proof.
  revert k. induction ws as [| x ws IH]; intros k Hk; [discriminate |].
  destruct k as [| k].
  - injection Hk as ->. change (<[0%nat := v]> (w :: ws)) with (v :: ws).
    rewrite !sum_popcnt_cons. lia.
  - change (<[Datatypes.S k := v]> (x :: ws)) with (x :: <[k := v]> ws).
    rewrite !sum_popcnt_cons, (IH k Hk). lia.
Qed.

Lemma popcnt_lor_1 (w : Z) :
  0 <= w -> bitset_atom_popcnt (Z.lor w 1) = bitset_atom_popcnt w + 1 - Z.land w 1.
Proof.
  intros Hw. rewrite land_1_testbit.
  rewrite (bitset_atom_popcnt_div2 (Z.lor w 1)) by (apply Z.lor_nonneg; lia).
  rewrite (bitset_atom_popcnt_div2 w Hw).
  rewrite Z.lor_spec, orb_true_r.
  rewrite !Z.div2_spec, Z.shiftr_lor. change (Z.shiftr 1 1) with 0.
  rewrite Z.lor_0_r. cbn [Z.b2z]. lia.
Qed.

Lemma popcnt_clear_0 (w : Z) :
  0 <= w <= BITSET_ATOM_MAX ->
  bitset_atom_popcnt (Z.land w (to_u64 (Z.lnot 1))) = bitset_atom_popcnt w - Z.land w 1.
Proof.
  intros Hw. rewrite land_1_testbit.
  rewrite (bitset_atom_popcnt_div2 (Z.land w _)) by (apply Z.land_nonneg; lia).
  rewrite (bitset_atom_popcnt_div2 w) by lia.
  rewrite Z.land_spec. change (Z.testbit (to_u64 (Z.lnot 1)) 0) with false.
  rewrite andb_false_r. cbn [Z.b2z].
  replace (Z.div2 (Z.land w (to_u64 (Z.lnot 1)))) with (Z.div2 w); [lia |].
  rewrite !Z.div2_spec. apply Z.bits_inj'. intros n Hn.
  rewrite !Z.shiftr_spec, Z.land_spec, unset_mask_bits by lia.
  replace (n + 1 =? 0) with false by (symmetry; apply Z.eqb_neq; lia).
  cbn [negb andb].
  destruct (Z.ltb_spec (n + 1) 64) as [Hlt | Hge]; [rewrite andb_true_r; reflexivity |].
  rewrite (atom_high_bits w (n + 1) Hw Hge). reflexivity.
Qed.

(** X22. On an initialized bitset of fewer than 2^58 atoms, at an index
    whose shift is defined, [bitset_set] raises [bitset_popcnt] by one when
    [bitset_get] read 0 there and leaves it as it is when it read 1;
    [bitset_unset] lowers it by what [bitset_get] read. *)
Theorem bitset_popcnt_set_unset (bs : bitset_t) (idx : Z) :
  initialized bs -> natoms bs < 2 ^ 58 ->
  0 <= idx < nbits bs -> Z.land idx BITS_PER_ATOM = 0 ->
  exists p g b1 b0,
    bitset_popcnt bs = Ret p /\ bitset_get bs idx = Ret g /\
    bitset_set bs idx = Ret b1 /\ bitset_popcnt b1 = Ret (p + 1 - g) /\
    bitset_unset bs idx = Ret b0 /\ bitset_popcnt b0 = Ret (p - g).
Proof.
  intros Hinit Hsmall Hi Hland.
  pose proof Hinit as (Hn & Hnat & ws & Hb & Hlen & Hall).
  destruct (initialized_atom bs ws idx Hinit Hb Hi) as [w Hw].
  pose proof (lookup_lt_Some _ _ _ Hw) as Hk.
  assert (Hwr : 0 <= w <= BITSET_ATOM_MAX).
  { rewrite Forall_lookup in Hall. exact (Hall _ _ Hw). }
  assert (Hone : 0 <= Z.lor w 1 <= BITSET_ATOM_MAX).
  { apply atom_range_of_bits; [apply Z.lor_nonneg; lia |].
    intros n Hn64. rewrite Z.lor_spec, (atom_high_bits w n Hwr Hn64), one_bits by lia.
    apply Z.eqb_neq. lia. }
  assert (Hclr : 0 <= Z.land w (to_u64 (Z.lnot 1)) <= BITSET_ATOM_MAX).
  { apply atom_range_of_bits; [apply Z.land_nonneg; lia |].
    intros n Hn64. rewrite Z.land_spec, (atom_high_bits w n Hwr Hn64). reflexivity. }
  exists (sum_popcnt ws), (Z.land w 1). do 2 eexists.
  split; [apply bitset_popcnt_sum_small; assumption |].
  split; [apply (bitset_get_defined bs ws idx w); assumption |].
  split; [apply (bitset_set_defined bs ws idx w); assumption |].
  split; [| split; [apply (bitset_unset_defined bs ws idx w); assumption |]].
  - erewrite bitset_popcnt_sum_small;
      [| reflexivity | rewrite length_insert; exact Hlen | exact Hsmall
       | apply Forall_insert; assumption].
    rewrite (sum_popcnt_insert ws _ w _ Hw), popcnt_lor_1 by lia.
    f_equal. lia.
  - erewrite bitset_popcnt_sum_small;
      [| reflexivity | rewrite length_insert; exact Hlen | exact Hsmall
       | apply Forall_insert; assumption].
    rewrite (sum_popcnt_insert ws _ w _ Hw), popcnt_clear_0 by lia.
    f_equal. lia.
Qed.

Lemma bitset_popcnt_set_unset_witness :
  exists p g b1 b0,
    bitset_popcnt (mk_bitset 70 2 (Block [6; 1])) = Ret p /\
    bitset_get (mk_bitset 70 2 (Block [6; 1])) 5 = Ret g /\
    bitset_set (mk_bitset 70 2 (Block [6; 1])) 5 = Ret b1 /\
    bitset_popcnt b1 = Ret (p + 1 - g) /\
    bitset_unset (mk_bitset 70 2 (Block [6; 1])) 5 = Ret b0 /\
    bitset_popcnt b0 = Ret (p - g).
Proof.
  apply (bitset_popcnt_set_unset (mk_bitset 70 2 (Block [6; 1])) 5).
  - split; [cbn; unfold SIZE_MAX; lia |]. split; [reflexivity |].
    exists [6; 1]. split; [reflexivity |]. split; [reflexivity |].
    repeat constructor; unfold BITSET_ATOM_MAX; lia.
  - cbn. lia.
  - cbn. lia.
  - reflexivity.
Defined.

Lemma count_indices_nonneg_ext (P Q : Z -> bool) (n : nat) :
  (forall i, 0 <= i -> P i = Q i) -> count_indices P 0 n = count_indices Q 0 n.
Proof. intros H. apply count_indices_ext. intros i Hi. apply H. lia. Qed.

(** The counts of the stored 1 bits of two blocks of equal length, of their
    atom-wise conjunction and of their atom-wise disjunction. *)
Lemma sum_popcnt_land_lor (aws bws : list Z) :
  length bws = length aws ->
  Forall (fun w => 0 <= w <= BITSET_ATOM_MAX) aws ->
  Forall (fun w => 0 <= w <= BITSET_ATOM_MAX) bws ->
  sum_popcnt (zip_with Z.land aws bws) + sum_popcnt (zip_with Z.lor aws bws)
    = sum_popcnt aws + sum_popcnt bws /\
  sum_popcnt (zip_with Z.land aws bws) <= sum_popcnt aws /\
  sum_popcnt (zip_with Z.land aws bws) <= sum_popcnt bws /\
  sum_popcnt aws <= sum_popcnt (zip_with Z.lor aws bws) /\
  sum_popcnt bws <= sum_popcnt (zip_with Z.lor aws bws).
Proof.
  intros Hlen Ha Hb.
  assert (Hland : Forall (fun w => 0 <= w <= BITSET_ATOM_MAX) (zip_with Z.land aws bws)).
  { apply (zip_with_range Z.land andb); auto.
    - intros x y n _. apply Z.land_spec.
    - intros x y Hx Hy. apply Z.land_nonneg. left. exact Hx. }
  assert (Hlor : Forall (fun w => 0 <= w <= BITSET_ATOM_MAX) (zip_with Z.lor aws bws)).
  { apply (zip_with_range Z.lor orb); auto.
    - intros x y n _. apply Z.lor_spec.
    - intros x y Hx Hy. apply Z.lor_nonneg. split; assumption. }
  rewrite (sum_popcnt_count _ Hland), (sum_popcnt_count _ Hlor),
    (sum_popcnt_count _ Ha), (sum_popcnt_count _ Hb).
  rewrite !length_zip_with, Hlen, Nat.min_id.
  set (n := (64 * length aws)%nat).
  rewrite (count_indices_nonneg_ext (stored_bit (zip_with Z.land aws bws))
             (fun i => stored_bit aws i && stored_bit bws i)).
  2: { intros i Hi. apply stored_bit_zip_with; auto. intros x y k _. apply Z.land_spec. }
  rewrite (count_indices_nonneg_ext (stored_bit (zip_with Z.lor aws bws))
             (fun i => stored_bit aws i || stored_bit bws i)).
  2: { intros i Hi. apply stored_bit_zip_with; auto. intros x y k _. apply Z.lor_spec. }
  split; [apply count_indices_and_or |].
  repeat split; apply count_indices_le; intros i.
  - intros H. apply andb_true_iff in H. tauto.
  - intros H. apply andb_true_iff in H. tauto.
  - intros H. rewrite H. reflexivity.
  - intros H. rewrite H. apply orb_true_r.
Qed.

(** X23. For initialized operands of the same number of atoms, fewer than
    2^58, the [bitset_popcnt] of what [bitset_and_to] leaves in [dest] is at
    most that of either source, the one of what [bitset_or_to] leaves is at
    least that of either source, and the two add up to the sum of the counts
    of the sources. *)
Theorem bitset_popcnt_and_or (st : gmap nat bitset_t) (dest a b : nat)
    (sd sa sb : bitset_t) :
  st !! dest = Some sd -> st !! a = Some sa -> st !! b = Some sb ->
  initialized sd -> initialized sa -> initialized sb ->
  natoms sa = natoms sb -> natoms sd = natoms sa -> natoms sa < 2 ^ 58 ->
  exists st_and st_or pa pb p_and p_or,
    bitset_and_to st dest a b = Ret st_and /\
    bitset_or_to st dest a b = Ret st_or /\
    bitset_popcnt sa = Ret pa /\ bitset_popcnt sb = Ret pb /\
    (d ← deref st_and dest; bitset_popcnt d) = Ret p_and /\
    (d ← deref st_or dest; bitset_popcnt d) = Ret p_or /\
    p_and <= pa /\ p_and <= pb /\ pa <= p_or /\ pb <= p_or /\
    p_and + p_or = pa + pb.
Proof.
  intros Hd Ha Hb (_ & _ & dws & Bd & Ld & _) (_ & _ & aws & Ba & La & Fa)
    (_ & _ & bws & Bb & Lb & Fb) Hab Hda Hsmall.
  destruct (bitset_and_to_or_to_atoms_aux st dest a b sd sa sb dws aws bws)
    as (Hand & Hor); try (repeat split; assumption).
  assert (Hlen : length bws = length aws) by lia.
  pose proof (sum_popcnt_land_lor aws bws Hlen Fa Fb) as (Hsum & H1 & H2 & H3 & H4).
  exists (<[dest := with_bits sd (Block (zip_with Z.land aws bws))]> st),
    (<[dest := with_bits sd (Block (zip_with Z.lor aws bws))]> st),
    (sum_popcnt aws), (sum_popcnt bws),
    (sum_popcnt (zip_with Z.land aws bws)), (sum_popcnt (zip_with Z.lor aws bws)).
  split; [exact Hand |]. split; [exact Hor |].
  split; [apply bitset_popcnt_sum_small; auto |].
  split; [apply bitset_popcnt_sum_small; auto; lia |].
  unfold deref. rewrite !lookup_insert_eq. cbn [mbind outcome_bind].
  split; [| split; [| repeat split; assumption]].
  - apply bitset_popcnt_sum_small; cbn [bits natoms with_bits];
      [reflexivity | rewrite length_zip_with; lia | lia |].
    apply (zip_with_range Z.land andb); auto.
    + intros x y n _. apply Z.land_spec.
    + intros x y Hx Hy. apply Z.land_nonneg. left. exact Hx.
  - apply bitset_popcnt_sum_small; cbn [bits natoms with_bits];
      [reflexivity | rewrite length_zip_with; lia | lia |].
    apply (zip_with_range Z.lor orb); auto.
    + intros x y n _. apply Z.lor_spec.
    + intros x y Hx Hy. apply Z.lor_nonneg. split; assumption.
Qed.

Lemma bitset_popcnt_and_or_witness :
  exists st_and st_or pa pb p_and p_or,
    bitset_and_to (<[3%nat := mk_bitset 70 2 (Block [5; 1])]>
                     (<[2%nat := mk_bitset 70 2 (Block [3; 0])]>
                        (<[1%nat := mk_bitset 70 2 (Block [0; 0])]> ∅))) 1 2 3
      = Ret st_and /\
    bitset_or_to (<[3%nat := mk_bitset 70 2 (Block [5; 1])]>
                    (<[2%nat := mk_bitset 70 2 (Block [3; 0])]>
                       (<[1%nat := mk_bitset 70 2 (Block [0; 0])]> ∅))) 1 2 3
      = Ret st_or /\
    bitset_popcnt (mk_bitset 70 2 (Block [3; 0])) = Ret pa /\
    bitset_popcnt (mk_bitset 70 2 (Block [5; 1])) = Ret pb /\
    (d ← deref st_and 1; bitset_popcnt d) = Ret p_and /\
    (d ← deref st_or 1; bitset_popcnt d) = Ret p_or /\
    p_and <= pa /\ p_and <= pb /\ pa <= p_or /\ pb <= p_or /\
    p_and + p_or = pa + pb.
Proof.
  assert (Hinit : forall ws, Forall (fun w => 0 <= w <= BITSET_ATOM_MAX) ws ->
                   length ws = 2%nat -> initialized (mk_bitset 70 2 (Block ws))).
  { intros ws Hall Hlen. split; [cbn; unfold SIZE_MAX; lia |].
    split; [reflexivity |]. exists ws. split; [reflexivity |].
    split; [cbn; lia | exact Hall]. }
  apply (bitset_popcnt_and_or
           (<[3%nat := mk_bitset 70 2 (Block [5; 1])]>
              (<[2%nat := mk_bitset 70 2 (Block [3; 0])]>
                 (<[1%nat := mk_bitset 70 2 (Block [0; 0])]> ∅)))
           1%nat 2%nat 3%nat
           (mk_bitset 70 2 (Block [0; 0])) (mk_bitset 70 2 (Block [3; 0]))
           (mk_bitset 70 2 (Block [5; 1]))).
  1-3: (vm_compute; reflexivity).
  1-3: (apply Hinit; [repeat constructor; unfold BITSET_ATOM_MAX; lia | reflexivity]).
  1-2: reflexivity.
  cbn. lia.
Defined.
